(** * Finite automata builder: the [Automaton] engine of r11.py

    A shallow embedding of the data part of [StateItem], of the class
    [Automaton] (add_state, set_start, set_accept, add_transition,
    simulate) and of the record handled by [AutomataWindow.save_automaton]
    and [AutomataWindow.load_automaton].

    Python objects are shared and mutated in place: a [StateItem] handed to
    the engine is the very object stored in [Automaton.states].  The model
    therefore keeps every [StateItem] in a store (the [heap]) and lets the
    automaton and the callers hold references into it. *)

From stdpp Require Import base option list strings gmap sets fin_maps.

Local Open Scope string_scope.
Local Open Scope list_scope.

(** ** Python values *)

(** Exceptions the modelled code can raise. *)
Inductive exn := KeyError | IndexError.

(** Outcome of a call: a returned value or a raised exception. *)
Inductive result (A : Type) :=
  | Return (a : A)
  | Raise (e : exn).
Arguments Return {A} a.
Arguments Raise {A} e.

#[global] Instance result_ret : MRet result := λ A a, Return a.

#[global] Instance result_bind : MBind result := λ A B k m,
  match m with
  | Return a => k a
  | Raise e => Raise e
  end.

#[global] Instance exn_eq_dec : EqDecision exn.
Proof. solve_decision. Defined.

#[global] Instance result_eq_dec {A} `{EqDecision A} : EqDecision (result A).
Proof. solve_decision. Defined.

(** Truth value of a [str] or [None]: [None] and the empty string are
    false, every other string is true. *)
Definition truthy (s : option string) : bool :=
  match s with
  | None => false
  | Some "" => false
  | Some _ => true
  end.

(** [for char in input_str]: iteration yields one-character strings. *)
Fixpoint chars (input_str : string) : list string :=
  match input_str with
  | EmptyString => []
  | String c rest => String c EmptyString :: chars rest
  end.

(** ** StateItem (data attributes; geometry and painting are left out) *)

Record StateItem := mkState {
  name : string;
  is_accept : bool;
  is_start : bool;
  transitions : gmap string (list string)
}.

(** [StateItem(name, ...)]: both flags false, empty transition table. *)
Definition StateItem_init (n : string) : StateItem :=
  mkState n false false ∅.

(** [StateItem.set_start(is_start)] *)
Definition StateItem_set_start (b : bool) (s : StateItem) : StateItem :=
  mkState (name s) (is_accept s) b (transitions s).

(** [StateItem.set_accept(is_accept)] *)
Definition StateItem_set_accept (b : bool) (s : StateItem) : StateItem :=
  mkState (name s) b (is_start s) (transitions s).

Definition with_transitions (t : gmap string (list string)) (s : StateItem)
  : StateItem :=
  mkState (name s) (is_accept s) (is_start s) t.

(** ** Object store *)

(** A reference designates an allocated object; references never dangle
    in Python, so the engine operations below are only ever applied to
    allocated references and leave the world unchanged otherwise. *)
Abbreviation ref := nat (only parsing).
Abbreviation heap := (list StateItem) (only parsing).

(** Allocation of a new object. *)
Definition alloc (h : heap) (s : StateItem) : heap * ref :=
  (h ++ [s], length h).

(** ** Automaton *)

Record Automaton := mkAutomaton {
  states : gmap string ref;
  start_state : option string;
  accept_states : gset string;
  is_dfa : bool
}.

(** [Automaton(is_dfa)] *)
Definition Automaton_init (dfa : bool) : Automaton :=
  mkAutomaton ∅ None ∅ dfa.

Definition World : Type := heap * Automaton.

(** [self.states.get(n)]: the object stored under [n], if any. *)
Definition get_state (h : heap) (a : Automaton) (n : string)
  : option StateItem :=
  r ← states a !! n; h !! r.

(** [Automaton.add_state] *)
Definition add_state (w : World) (state : ref) : World :=
  let '(h, a) := w in
  match h !! state with
  | None => w
  | Some st =>
      (h, mkAutomaton (<[name st := state]> (states a))
                      (start_state a) (accept_states a) (is_dfa a))
  end.

(** The first half of [Automaton.set_start]: clearing the flag of the
    previous start state. *)
Definition clear_old_start (h : heap) (a : Automaton) (n : string) : heap :=
  if truthy (start_state a)
     && negb (bool_decide (start_state a = Some n))
  then
    match start_state a with
    | Some s0 =>
        match states a !! s0 with
        | Some old_start => alter (StateItem_set_start false) old_start h
        | None => h
        end
    | None => h
    end
  else h.

(** [Automaton.set_start] *)
Definition set_start (w : World) (state : ref) : World :=
  let '(h, a) := w in
  match h !! state with
  | None => w
  | Some st =>
      let h1 := clear_old_start h a (name st) in
      (alter (StateItem_set_start true) state h1,
       mkAutomaton (states a) (Some (name st)) (accept_states a) (is_dfa a))
  end.

(** [Automaton.set_accept] *)
Definition set_accept (w : World) (state : ref) : World :=
  let '(h, a) := w in
  match h !! state with
  | None => w
  | Some st =>
      (alter (StateItem_set_accept true) state h,
       mkAutomaton (states a) (start_state a)
                   ({[name st]} ∪ accept_states a) (is_dfa a))
  end.

(** The update [add_transition] performs on the table [trans] of the
    source state, for the symbol and the name of the destination. *)
Definition add_target (symbol to_name : string)
    (trans : gmap string (list string)) : gmap string (list string) :=
  let trans1 :=
    match trans !! symbol with
    | None => <[symbol := []]> trans
    | Some _ => trans
    end in
  match trans1 !! symbol with
  | Some l =>
      if bool_decide (to_name ∈ l) then trans1
      else <[symbol := l ++ [to_name]]> trans1
  | None => trans1
  end.

(** [Automaton.add_transition]; the automaton itself is not touched. *)
Definition add_transition_heap (h : heap) (from_state : ref)
    (symbol : string) (to_state : ref) : heap :=
  match h !! from_state, h !! to_state with
  | Some _, Some t =>
      alter (λ f, with_transitions (add_target symbol (name t) (transitions f)) f)
            from_state h
  | _, _ => h
  end.

Definition add_transition (w : World) (from_state : ref) (symbol : string)
    (to_state : ref) : World :=
  (add_transition_heap w.1 from_state symbol to_state, w.2).

(** ** simulate *)

(** The loop of the DFA branch, from the state named [current]. *)
Fixpoint dfa_loop (h : heap) (a : Automaton) (current : string)
    (input : list string) : result bool :=
  match input with
  | [] => Return (bool_decide (current ∈ accept_states a))
  | char :: rest =>
      match get_state h a current with
      | None => Return false
      | Some state =>
          match transitions state !! char with
          | None => Return false
          | Some [] => Raise IndexError
          | Some (target :: _) => dfa_loop h a target rest
          end
      end
  end.

(** The inner loop of the NFA branch over the names of the frontier;
    [self.states[state_name]] raises [KeyError] on a name that is not a
    key of the mapping. *)
Fixpoint nfa_inner (h : heap) (a : Automaton) (char : string)
    (names : list string) (next_states : gset string) : result (gset string) :=
  match names with
  | [] => Return next_states
  | state_name :: rest =>
      match get_state h a state_name with
      | None => Raise KeyError
      | Some state =>
          nfa_inner h a char rest
            (match transitions state !! char with
             | Some targets => next_states ∪ list_to_set targets
             | None => next_states
             end)
      end
  end.

Definition nfa_step (h : heap) (a : Automaton) (current_states : gset string)
    (char : string) : result (gset string) :=
  nfa_inner h a char (elements current_states) ∅.

(** The outer loop of the NFA branch: the frontier after the input. *)
Fixpoint nfa_loop (h : heap) (a : Automaton) (current_states : gset string)
    (input : list string) : result (gset string) :=
  match input with
  | [] => Return current_states
  | char :: rest =>
      next_states ← nfa_step h a current_states char;
      nfa_loop h a next_states rest
  end.

(** [any(s in self.accept_states for s in current_states)] *)
Definition any_accept (a : Automaton) (current_states : gset string) : bool :=
  existsb (λ s, bool_decide (s ∈ accept_states a)) (elements current_states).

(** [Automaton.simulate] *)
Definition simulate (w : World) (input_str : string) : result bool :=
  let '(h, a) := w in
  if negb (truthy (start_state a)) then Return false
  else
    match start_state a with
    | None => Return false
    | Some start =>
        if is_dfa a then dfa_loop h a start (chars input_str)
        else
          current_states ← nfa_loop h a {[start]} (chars input_str);
          Return (any_accept a current_states)
    end.

(** A sequence of [add_transition] calls. *)
Definition add_transitions (w : World) (calls : list (ref * string * ref))
  : World :=
  foldl (λ w c, add_transition w c.1.1 c.1.2 c.2) w calls.

(** ** Sequences of engine operations *)

(** What a client of the engine can do: create a [StateItem] and call the
    four mutators on objects it holds. *)
Inductive op :=
  | NewState (n : string)
  | AddState (state : ref)
  | SetStart (state : ref)
  | SetAccept (state : ref)
  | AddTransition (from_state : ref) (symbol : string) (to_state : ref).

Definition step (w : World) (o : op) : World :=
  match o with
  | NewState n => ((alloc w.1 (StateItem_init n)).1, w.2)
  | AddState r => add_state w r
  | SetStart r => set_start w r
  | SetAccept r => set_accept w r
  | AddTransition f c t => add_transition w f c t
  end.

Definition run (w : World) (ops : list op) : World := foldl step w ops.

(** The world before any operation: no object, [Automaton(is_dfa)]. *)
Definition init (dfa : bool) : World := ([], Automaton_init dfa).

(** The object [r] is stored in the mapping, under its own name. *)
Definition in_mapping (w : World) (r : ref) : bool :=
  match w.1 !! r with
  | Some st => bool_decide (states w.2 !! name st = Some r)
  | None => false
  end.

(** The checks the front-end makes before it calls the engine:
    [AutomataWindow.add_state] refuses an empty or already used name, and
    the start state is chosen among the states of the automaton. *)
Definition start_checked (w : World) (o : op) : bool :=
  match o with
  | AddState r =>
      match w.1 !! r with
      | Some st => truthy (Some (name st))
                   && bool_decide (states w.2 !! name st = None)
      | None => false
      end
  | SetStart r => in_mapping w r
  | _ => true
  end.

(** The same, with the accept state and the destination of a transition
    also taken among the states of the automaton
    ([AutomataWindow.add_transition] looks the destination up by name). *)
Definition validated (w : World) (o : op) : bool :=
  start_checked w o &&
  match o with
  | SetAccept r => in_mapping w r
  | AddTransition f _ t => in_mapping w t
  | _ => true
  end.

(** Runs [ops] as long as every operation passes [check]. *)
Fixpoint run_checked (check : World → op → bool) (w : World) (ops : list op)
  : option World :=
  match ops with
  | [] => Some w
  | o :: rest =>
      if check w o then run_checked check (step w o) rest else None
  end.

(** ** The saved record *)

(** The dict that [save_automaton] builds: a literal with the four keys
    ["states"], ["start"], ["accept"] and ["transitions"], so the four
    fields are always there; [sv_start = None] is a start state that is
    [None] (JSON [null]).  A file that lacks a key is a [FileData],
    further down. *)
Record Saved := mkSaved {
  sv_states : list string;
  sv_start : option string;
  sv_accept : list string;
  sv_transitions : gmap string (gmap string (list string))
}.

(** The dictionary comprehension
    [{s.name: s.transitions for s in self.automaton.states.values()}]. *)
Definition save_transitions (h : heap) (objs : list ref)
  : gmap string (gmap string (list string)) :=
  foldl (λ acc r,
           match h !! r with
           | Some s => <[name s := transitions s]> acc
           | None => acc
           end) ∅ objs.

(** The record built by [AutomataWindow.save_automaton].  A Python dict
    enumerates its keys in insertion order, the map of the model in an
    order of its own; names are distinct keys and [load_automaton] treats
    each name on its own, so the automaton loaded is the same up to the
    references given to the new objects. *)
Definition save_automaton (w : World) : Saved :=
  let '(h, a) := w in
  mkSaved (map_to_list (states a)).*1
          (start_state a)
          (elements (accept_states a))
          (save_transitions h (map_to_list (states a)).*2).

(** [AutomataWindow.load_automaton], loop by loop, on the values found
    under the four keys; the subscripts [data["states"]], [data["start"]],
    [data["accept"]] and [data["transitions"]] themselves, which fail on
    a missing key, are in [load_automaton_file]. *)
Definition load_states (w : World) (names : list string) : World :=
  foldl (λ w n,
           let '(h, state) := alloc w.1 (StateItem_init n) in
           add_state (h, w.2) state) w names.

(** Lines 296 and 297, for the value [start] of [data["start"]]: [None]
    is the value [None], not a missing key. *)
Definition load_start (w : World) (start : option string) : result World :=
  if truthy start then
    match start with
    | Some s =>
        match states w.2 !! s with
        | Some state => Return (set_start w state)
        | None => Raise KeyError
        end
    | None => Return w
    end
  else Return w.

Fixpoint load_accept (w : World) (names : list string) : result World :=
  match names with
  | [] => Return w
  | n :: rest =>
      match states w.2 !! n with
      | Some state => load_accept (set_accept w state) rest
      | None => Raise KeyError
      end
  end.

Definition load_targets (from_obj : ref) (symbol : string) (w : World)
    (to_list : list string) : World :=
  foldl (λ w to_name,
           match states w.2 !! to_name with
           | Some to_obj => add_transition w from_obj symbol to_obj
           | None => w
           end) w to_list.

Definition load_symbols (from_obj : ref) (w : World)
    (trans : list (string * list string)) : World :=
  foldl (λ w st, load_targets from_obj st.1 w st.2) w trans.

Definition load_transitions (w : World)
    (tr : list (string * gmap string (list string))) : World :=
  foldl (λ w ft,
           match states w.2 !! ft.1 with
           | Some from_obj => load_symbols from_obj w (map_to_list ft.2)
           | None => w
           end) w tr.

(** [load_automaton] on a record that has its four keys, as every record
    written by [save_automaton] has.  It starts from a new
    [Automaton(is_dfa=True)]; the automaton of the world it is called in
    is dropped, the objects of the store stay where they are.
    [self.automaton.states[...]] raises [KeyError] on a start or accept
    name that is not among the states. *)
Definition load_automaton (w : World) (data : Saved) : result World :=
  let w0 := (w.1, Automaton_init true) in
  let w1 := load_states w0 (sv_states data) in
  w2 ← load_start w1 (sv_start data);
  w3 ← load_accept w2 (sv_accept data);
  Return (load_transitions w3 (map_to_list (sv_transitions data))).

(** ** The object read from a file *)

(** What [json.load] returns for a file that need not come from
    [save_automaton]: each of the four keys may be missing.  A key that
    is there holds a value of the type [save_automaton] writes under it;
    for ["start"], [Some None] is JSON [null] and [None] a missing key. *)
Record FileData := mkFileData {
  fd_states : option (list string);
  fd_start : option (option string);
  fd_accept : option (list string);
  fd_transitions : option (gmap string (gmap string (list string)))
}.

(** [data[key]]: [KeyError] when the key is missing. *)
Definition subscript {A} (field : option A) : result A :=
  match field with
  | Some v => Return v
  | None => Raise KeyError
  end.

(** A record written by [save_automaton], read back. *)
Definition file_of (data : Saved) : FileData :=
  mkFileData (Some (sv_states data)) (Some (sv_start data))
             (Some (sv_accept data)) (Some (sv_transitions data)).

(** The record that a file holds when none of its keys is missing. *)
Definition file_record (data : FileData) : option Saved :=
  names ← fd_states data;
  start ← fd_start data;
  accept ← fd_accept data;
  trans ← fd_transitions data;
  Some (mkSaved names start accept trans).

(** [AutomataWindow.load_automaton] from the line after [json.load], on
    the object read from any file: each subscript is evaluated where the
    source has it, after the loops that come before it. *)
Definition load_automaton_file (w : World) (data : FileData) : result World :=
  let w0 := (w.1, Automaton_init true) in
  names ← subscript (fd_states data);
  let w1 := load_states w0 names in
  start ← subscript (fd_start data);
  w2 ← load_start w1 start;
  accept ← subscript (fd_accept data);
  w3 ← load_accept w2 accept;
  trans ← subscript (fd_transitions data);
  Return (load_transitions w3 (map_to_list trans)).

(** ** The specification's own words, as definitions *)

(** DFA mode: the first entry of the target list of [q] for [c], when
    the state [q] has an entry for [c]. *)
Definition spec_dfa_move (w : World) (q c : string) : option string :=
  st ← get_state w.1 w.2 q;
  targets ← transitions st !! c;
  head targets.

(** The state reached from [q] on [input]; [None] once a character has
    no entry. *)
Fixpoint spec_dfa_walk (w : World) (q : string) (input : list string)
  : option string :=
  match input with
  | [] => Some q
  | c :: rest => q' ← spec_dfa_move w q c; spec_dfa_walk w q' rest
  end.

Definition spec_dfa_accepts (w : World) (start : string) (input : list string)
  : bool :=
  match spec_dfa_walk w start input with
  | Some q => bool_decide (q ∈ accept_states w.2)
  | None => false
  end.

(** NFA mode: what the state named [q] contributes for [c]. *)
Definition spec_targets (w : World) (q c : string) : gset string :=
  match get_state w.1 w.2 q with
  | Some st =>
      match transitions st !! c with
      | Some targets => list_to_set targets
      | None => ∅
      end
  | None => ∅
  end.

(** The union of the contributions of the states of the frontier. *)
Definition spec_nfa_step (w : World) (frontier : gset string) (c : string)
  : gset string :=
  ⋃ ((λ q, spec_targets w q c) <$> elements frontier).

Definition spec_frontier (w : World) (start : string) (input : list string)
  : gset string :=
  foldl (spec_nfa_step w) {[start]} input.

Definition spec_nfa_accepts (w : World) (start : string) (input : list string)
  : bool :=
  bool_decide (∃ q, q ∈ spec_frontier w start input ∧ q ∈ accept_states w.2).

(** ** Invariants of the store and of the automaton *)

(** Every target list of every object of the store satisfies [P]. *)
Definition tables (P : list string → Prop) (h : heap) : Prop :=
  ∀ r st c l, h !! r = Some st → transitions st !! c = Some l → P l.

(** No target list has a duplicate entry. *)
Definition targets_nodup (h : heap) : Prop := tables NoDup h.

(** Every symbol of a transition table has at least one target. *)
Definition targets_nonempty (h : heap) : Prop := tables (λ l, l ≠ []) h.

(** The start state, the accept states and every destination in the
    store are states of the automaton. *)
Definition names_known (w : World) : Prop :=
  (∀ s, start_state w.2 = Some s → is_Some (states w.2 !! s))
  ∧ (∀ n, n ∈ accept_states w.2 → is_Some (states w.2 !! n))
  ∧ tables (λ l, ∀ t, t ∈ l → is_Some (states w.2 !! t)) w.1.

(** States of the automaton whose [is_start] flag is set. *)
Definition at_most_one_start (w : World) : Prop :=
  ∀ n1 n2 s1 s2,
    get_state w.1 w.2 n1 = Some s1 → is_start s1 = true →
    get_state w.1 w.2 n2 = Some s2 → is_start s2 = true →
    n1 = n2.

(** The same for the states stored in the automaton only. *)
Definition automaton_targets_nonempty (w : World) : Prop :=
  ∀ n st c l,
    get_state w.1 w.2 n = Some st → transitions st !! c = Some l → l ≠ [].

(** What [add_transition] makes of a target list: [to_name] is appended
    unless it is already there. *)
Definition append_new (to_name : string) (l : list string) : list string :=
  if bool_decide (to_name ∈ l) then l else l ++ [to_name].

(** Every name of the frontier is a key of the state mapping. *)
Definition frontier_known (w : World) (frontier : gset string) : Prop :=
  ∀ q, q ∈ frontier → is_Some (get_state w.1 w.2 q).

(** Every destination of a state of the automaton is itself a state of
    the automaton. *)
Definition targets_known (w : World) : Prop :=
  ∀ n st c l t,
    get_state w.1 w.2 n = Some st → transitions st !! c = Some l →
    t ∈ l → is_Some (get_state w.1 w.2 t).

(** The state mapping stores each object under its own, non-empty name. *)
Definition keyed_by_name (w : World) : Prop :=
  ∀ n r, states w.2 !! n = Some r →
         n ≠ "" ∧ ∃ st, w.1 !! r = Some st ∧ name st = n.

(** An object whose [is_start] flag is set is the state of the automaton
    recorded in [start_state]. *)
Definition start_flag_recorded (w : World) : Prop :=
  ∀ r st, w.1 !! r = Some st → is_start st = true →
          start_state w.2 = Some (name st) ∧ states w.2 !! name st = Some r.



(** The state mapping stores each object under its own name. *)
Definition stored_under_name (w : World) : Prop :=
  ∀ n r, states w.2 !! n = Some r → ∃ st, w.1 !! r = Some st ∧ name st = n.

(** The states of an automaton being loaded, before its transitions are
    added: objects allocated from [base] on, stored under their names,
    with an empty table. *)
Definition loaded_blank (base : nat) (w : World) : Prop :=
  ∀ n r, states w.2 !! n = Some r →
         (base ≤ r)%nat ∧ ∃ st, w.1 !! r = Some st ∧ name st = n
                                ∧ transitions st = ∅.

(** The automata that [save_automaton] and [load_automaton] carry over:
    states stored under their names; the start state and the accept
    states are states of the automaton, and so is every destination;
    target lists are non-empty and without duplicates. *)
Definition well_formed (w : World) : Prop :=
  stored_under_name w
  ∧ (∀ s, start_state w.2 = Some s → truthy (Some s) = true →
          is_Some (states w.2 !! s))
  ∧ (∀ n, n ∈ accept_states w.2 → is_Some (states w.2 !! n))
  ∧ (∀ n st c l, get_state w.1 w.2 n = Some st →
                 transitions st !! c = Some l →
                 l ≠ [] ∧ NoDup l ∧ ∀ t, t ∈ l → is_Some (states w.2 !! t)).

(** ** Example automata *)

(** The two-state DFA [q0 --a--> q1], [q1 --b--> q1], start [q0],
    accept [q1], built through the engine. *)
Definition build_ab : list op :=
  [NewState "q0"; NewState "q1"; AddState 0; AddState 1;
   SetStart 0; SetAccept 1;
   AddTransition 0 "a" 1; AddTransition 1 "b" 1].

Definition dfa_ab : World := run (init true) build_ab.

(** The NFA of the same shape with a fork: [q0 --a--> q1] and
    [q0 --a--> q2], start [q0], accept [q1]. *)
Definition build_fork : list op :=
  [NewState "q0"; NewState "q1"; NewState "q2";
   AddState 0; AddState 1; AddState 2;
   SetStart 0; SetAccept 1;
   AddTransition 0 "a" 1; AddTransition 0 "a" 2].

Definition nfa_fork : World := run (init false) build_fork.

(** A transition to a state that was never added to the automaton:
    [q0 --a--> q1] and [q0 --a--> ghost], where only [q0] and [q1] are
    in the mapping. *)
Definition build_dangling : list op :=
  [NewState "q0"; NewState "q1"; NewState "ghost";
   AddState 0; AddState 1;
   SetStart 0; SetAccept 1;
   AddTransition 0 "a" 1; AddTransition 0 "a" 2].

Definition nfa_dangling : World := run (init false) build_dangling.
Definition dfa_dangling : World := run (init true) build_dangling.

(** The same in NFA mode with the loop [q1 --a--> q1]. *)
Definition nfa_dangling_loop : World :=
  run (init false) (build_dangling ++ [AddTransition 1 "a" 1]).

(** [set_start] on a state that is added to the automaton only later. *)
Definition build_two_starts : list op :=
  [NewState "a"; NewState "z"; AddState 0;
   SetStart 1; SetStart 0; AddState 1].



(** ** AutomataWindow: the handlers of the buttons *)

(** The part of the window the handlers read and write: the objects
    created so far, [self.automaton] and [self.selected_state].  Drawing
    (the scene, arrows, labels) is left out. *)
Record Window := mkWindow {
  objects : list StateItem;
  automaton : Automaton;
  selected_state : option nat
}.

(** What a handler shows in a [QMessageBox]. *)
Inductive message :=
  | Warning (title text : string)
  | Information (title text : string).

Definition window_world (win : Window) : World :=
  (objects win, automaton win).

Module AutomataWindow.

(** [AutomataWindow.__init__]: nothing created, [Automaton(is_dfa=True)],
    no state selected. *)
Definition new : Window := mkWindow [] (Automaton_init true) None.

(** [AutomataWindow.add_state]; [name] and [ok] are what the input dialog
    returns. *)
Definition add_state (win : Window) (name : string) (ok : bool)
  : Window * option message :=
  if ok && truthy (Some name) then
    if bool_decide (is_Some (states (automaton win) !! name)) then
      (win, Some (Warning "Duplicate state"
                    ("State '" +:+ name +:+ "' already exists.")))
    else
      let '(h, state) := alloc (objects win) (StateItem_init name) in
      let w := add_state (h, automaton win) state in
      (mkWindow w.1 w.2 (selected_state win), None)
  else (win, None).

(** [AutomataWindow.on_state_clicked], called by
    [StateItem.mousePressEvent] of the item that was clicked. *)
Definition on_state_clicked (win : Window) (state : nat) : Window :=
  mkWindow (objects win) (automaton win) (Some state).

(** [AutomataWindow.set_start_state] *)
Definition set_start_state (win : Window) : Window :=
  match selected_state win with
  | Some state =>
      let w := set_start (window_world win) state in
      mkWindow w.1 w.2 (selected_state win)
  | None => win
  end.

(** [AutomataWindow.set_accept_state] *)
Definition set_accept_state (win : Window) : Window :=
  match selected_state win with
  | Some state =>
      let w := set_accept (window_world win) state in
      mkWindow w.1 w.2 (selected_state win)
  | None => win
  end.

(** [AutomataWindow.add_transition]; [(to_name, ok)] and [(symbol, ok2)]
    are what the two input dialogs return. *)
Definition add_transition (win : Window) (to_name : string) (ok : bool)
    (symbol : string) (ok2 : bool) : Window * option message :=
  match selected_state win with
  | None =>
      (win, Some (Warning "No state selected"
                    "Please select a source state first."))
  | Some from_state =>
      if negb ok || negb (truthy (Some to_name)) then (win, None)
      else if negb ok2 || negb (truthy (Some symbol)) then (win, None)
      else if negb (String.length symbol =? 1)%nat then
        (win, Some (Warning "Invalid Symbol"
                      "Transition symbol must be a single character."))
      else
        match states (automaton win) !! to_name with
        | None =>
            (win, Some (Warning "Invalid State"
                          ("Destination state '" +:+ to_name
                           +:+ "' does not exist.")))
        | Some to_state =>
            let w := add_transition (window_world win)
                       from_state symbol to_state in
            (mkWindow w.1 w.2 (selected_state win), None)
        end
  end.

(** [AutomataWindow.simulate_input]: the message shown, if any. *)
Definition simulate_input (win : Window) (input_str : string) (ok : bool)
  : result (option message) :=
  if ok then
    accepted ← simulate (window_world win) input_str;
    Return (Some (Information "Result"
                    (if accepted : bool then "Accepted" else "Rejected")))
  else Return None.

End AutomataWindow.

(** What the user can do in the window, with the answers given to the
    dialogs.  Loading and saving go through files and are not events
    here. *)
Inductive event :=
  | AddStateClicked (name : string) (ok : bool)
  | StateClicked (state : nat)
  | SetStartClicked
  | SetAcceptClicked
  | AddTransitionClicked (to_name : string) (ok : bool)
                         (symbol : string) (ok2 : bool)
  | SimulateClicked (input_str : string) (ok : bool).

(** One event: the window after it and the message shown.  Only an item
    that exists can be clicked. *)
Definition handle (win : Window) (e : event)
  : result (Window * option message) :=
  match e with
  | AddStateClicked name ok => Return (AutomataWindow.add_state win name ok)
  | StateClicked state =>
      match objects win !! state with
      | Some _ => Return (AutomataWindow.on_state_clicked win state, None)
      | None => Return (win, None)
      end
  | SetStartClicked => Return (AutomataWindow.set_start_state win, None)
  | SetAcceptClicked => Return (AutomataWindow.set_accept_state win, None)
  | AddTransitionClicked to_name ok symbol ok2 =>
      Return (AutomataWindow.add_transition win to_name ok symbol ok2)
  | SimulateClicked input_str ok =>
      m ← AutomataWindow.simulate_input win input_str ok;
      Return (win, m)
  end.

(** A session: the events in order, with the messages shown. *)
Fixpoint session (win : Window) (events : list event)
  : result (Window * list (option message)) :=
  match events with
  | [] => Return (win, [])
  | e :: rest =>
      '(win1, m) ← handle win e;
      '(win2, ms) ← session win1 rest;
      Return (win2, m :: ms)
  end.

(** Every symbol of every transition table is one character long. *)
Definition symbols_single (h : list StateItem) : Prop :=
  ∀ r st c l, h !! r = Some st → transitions st !! c = Some l →
              String.length c = 1%nat.

(** The same automaton in the other mode: [Automaton(is_dfa=dfa)] with
    the same states, start state and accept states. *)
Definition with_mode (dfa : bool) (a : Automaton) : Automaton :=
  mkAutomaton (states a) (start_state a) (accept_states a) dfa.

(** At most one destination for each state and symbol. *)
Definition deterministic (w : World) : Prop :=
  ∀ n st c l, get_state w.1 w.2 n = Some st →
              transitions st !! c = Some l → ∃ t, l = [t].

(** What holds of the window after any session: its automaton was built
    by checked engine calls, every object created is a state of the
    automaton, the selected state is one of them, and symbols are single
    characters. *)
Definition window_invariant (win : Window) : Prop :=
  (∃ ops, run_checked validated (init true) ops = Some (window_world win))
  ∧ (∀ r, r < length (objects win) → in_mapping (window_world win) r = true)
  ∧ (∀ r, selected_state win = Some r → r < length (objects win))
  ∧ symbols_single (objects win).

(** The states of a loaded automaton: objects allocated from [base] on,
    stored under their names, whose target lists are non-empty, without
    duplicates and made of state names. *)
Definition loaded_tables (base : nat) (w : World) : Prop :=
  ∀ n r, states w.2 !! n = Some r →
    (base ≤ r)%nat
    ∧ ∃ st, w.1 !! r = Some st ∧ name st = n
            ∧ ∀ c l, transitions st !! c = Some l →
                     l ≠ [] ∧ NoDup l
                     ∧ ∀ t, t ∈ l → is_Some (states w.2 !! t).

(** The names a record refers to as start or accept state are listed
    among its states. *)
Definition names_listed (data : Saved) : Prop :=
  (∀ s, sv_start data = Some s → truthy (Some s) = true →
        s ∈ sv_states data)
  ∧ (∀ n, n ∈ sv_accept data → n ∈ sv_states data).

(** A record in which neither the accept state nor the destination of
    the transition is listed as a state, and one with an unlisted start
    state. *)
Definition record_loose : Saved :=
  mkSaved ["q0"; "q1"; "q0"] (Some "q0") ["q1"]
    {["q0" := {["a" := ["q1"; "zz"; "q1"]; "b" := []; "long" := ["q0"]]};
      "zz" := {["a" := ["q0"]]}]}.

Definition record_bad_start : Saved :=
  mkSaved ["q0"] (Some "q1") [] ∅.

(** A file without the key ["start"], and one without ["transitions"]. *)
Definition file_without_start : FileData :=
  mkFileData (Some ["q0"]) None (Some ["q0"]) (Some ∅).

Definition file_without_transitions : FileData :=
  mkFileData (Some ["q0"]) (Some None) (Some ["q0"]) None.

(** A state named by the empty string, made the start state and an
    accept state. *)
Definition build_empty_start : list op :=
  [NewState ""; AddState 0; SetStart 0; SetAccept 0].

(** The automaton loaded from [record_loose] over the window's DFA. *)
Definition loaded_loose : World :=
  match load_automaton dfa_ab record_loose with
  | Return w => w
  | Raise _ => dfa_ab
  end.

(** A session that builds the two-state DFA in the window. *)
Definition session_ab : list event :=
  [AddStateClicked "q0" true; AddStateClicked "q1" true;
   AddStateClicked "q1" true; AddStateClicked "" true;
   StateClicked 0; SetStartClicked;
   AddTransitionClicked "q1" true "a" true;
   AddTransitionClicked "q2" true "a" true;
   AddTransitionClicked "q1" true "ab" true;
   StateClicked 1; SetAcceptClicked;
   AddTransitionClicked "q1" true "b" true;
   SimulateClicked "ab" true].

Definition window_ab : Window :=
  match session AutomataWindow.new session_ab with
  | Return (win, _) => win
  | Raise _ => AutomataWindow.new
  end.

Definition messages_ab : list (option message) :=
  match session AutomataWindow.new session_ab with
  | Return (_, ms) => ms
  | Raise _ => []
  end.

(** * Properties *)

(** ** Basic facts *)

Lemma chars_app (s1 s2 : string) :
  chars (s1 +:+ s2) = chars s1 ++ chars s2.
Proof.
  induction s1 as [|c s1 IH]; simpl; [done|]. by rewrite <- IH.
Qed.

Lemma truthy_Some_ne (s : string) : truthy (Some s) = true ↔ s ≠ "".
Proof. destruct s; simpl; split; intros; congruence. Qed.

(** ** Simulation without a start state *)

(** C5: when [start_state] is not set ([None], or the empty name, which
    the guard of [simulate] treats alike), [simulate] returns false for
    every input string, the empty one included, in DFA and in NFA mode. *)
Theorem simulate_no_start (w : World) (input_str : string) :
  truthy (start_state w.2) = false →
  simulate w input_str = Return false.
Proof.
  destruct w as [h a]; simpl. intros ->. done.
Qed.

Lemma simulate_no_start_witness :
  simulate (init true) "" = Return false
  ∧ simulate (init false) "ab" = Return false.
Proof.
  split; apply simulate_no_start; reflexivity.
Defined.

(** ** DFA mode *)

Lemma dfa_loop_spec (w : World) (q : string) (input : list string) :
  automaton_targets_nonempty w →
  dfa_loop w.1 w.2 q input = Return (spec_dfa_accepts w q input).
Proof.
  intros Hne. revert q.
  induction input as [|c rest IH]; intros q; [done|].
  unfold spec_dfa_accepts in *; simpl.
  unfold spec_dfa_move.
  destruct (get_state w.1 w.2 q) as [st|] eqn:Hst; simpl; [|done].
  destruct (transitions st !! c) as [l|] eqn:Hl; simpl; [|done].
  destruct l as [|t l]; simpl.
  - by destruct (Hne _ _ _ _ Hst Hl).
  - apply IH.
Qed.

(** C1, as the code has it: in DFA mode, with a start state whose name
    is not the empty string, [simulate] walks the input from the start
    state, rejects at the first character for which the current state
    has no entry, otherwise moves to the first entry of the target list,
    and at the end answers whether the state reached is an accept state.
    Target lists are non-empty, as [add_transition] makes them. *)
Theorem simulate_dfa (w : World) (start input_str : string) :
  is_dfa w.2 = true →
  start_state w.2 = Some start →
  truthy (Some start) = true →
  automaton_targets_nonempty w →
  simulate w input_str = Return (spec_dfa_accepts w start (chars input_str)).
Proof.
  intros Hdfa Hstart Hset Hne.
  pose proof (dfa_loop_spec w start (chars input_str) Hne) as Hloop.
  destruct w as [h a]; cbn [fst snd] in *.
  unfold simulate. by rewrite Hstart, Hset, Hdfa.
Qed.

(** ** The store under the engine operations *)

Lemma heap_alter_lookup (f : StateItem → StateItem) (r r' : ref) (h : heap)
    (st' : StateItem) :
  alter f r h !! r' = Some st' →
  ∃ st, h !! r' = Some st ∧ (st' = st ∨ (r' = r ∧ st' = f st)).
Proof.
  destruct (decide (r = r')) as [->|Hne].
  - rewrite list_lookup_alter_eq.
    destruct (h !! r') as [st|]; simpl; [|done].
    intros [= <-]. eauto.
  - rewrite list_lookup_alter_ne by done. eauto.
Qed.

Lemma heap_alter_lookup_Some (f : StateItem → StateItem) (r r' : ref)
    (h : heap) (st : StateItem) :
  h !! r' = Some st →
  alter f r h !! r' = Some (if decide (r = r') then f st else st).
Proof.
  intros Hst. rewrite list_lookup_alter.
  case_decide; subst; by rewrite Hst.
Qed.

Lemma add_target_lookup (symbol to_name c : string)
    (trans : gmap string (list string)) :
  add_target symbol to_name trans !! c =
    if decide (c = symbol)
    then Some (append_new to_name (default [] (trans !! symbol)))
    else trans !! c.
Proof.
  unfold add_target, append_new.
  destruct (trans !! symbol) as [l|] eqn:Hl; simpl.
  - rewrite Hl. case_bool_decide.
    + case_decide; by subst.
    + case_decide; subst; by simplify_map_eq.
  - rewrite lookup_insert_eq. simpl.
    rewrite insert_insert_eq.
    case_decide; subst; by simplify_map_eq.
Qed.

(** Each object of the store after a step is a new [StateItem], or an
    object that was there, with its name, and with its table either
    unchanged or extended by [add_target]. *)
Lemma step_lookup (w : World) (o : op) (r : ref) (st' : StateItem) :
  (step w o).1 !! r = Some st' →
  (∃ n, st' = StateItem_init n) ∨
  ∃ st, w.1 !! r = Some st ∧ name st' = name st ∧
        (transitions st' = transitions st ∨
         ∃ symbol to_name,
           transitions st' = add_target symbol to_name (transitions st)).
Proof.
  destruct w as [h a].
  destruct o as [n|state|state|state|f c t]; simpl.
  - intros [[_ ?]|[_ <-]]%lookup_snoc_Some; [right|left]; eauto.
  - destruct (h !! state); simpl; intros ?; right; eauto.
  - destruct (h !! state) as [st0|]; simpl; [|intros ?; right; eauto].
    intros (st1 & Hst1 & Hst')%heap_alter_lookup.
    assert (∃ st, h !! r = Some st ∧ name st1 = name st
                  ∧ transitions st1 = transitions st) as (st & ? & ? & ?).
    { revert Hst1. unfold clear_old_start.
      destruct (_ && _); [|eauto].
      destruct (start_state a) as [s0|]; [|eauto].
      destruct (states a !! s0); [|eauto].
      intros (st & ? & [->|[_ ->]])%heap_alter_lookup; eauto. }
    right. exists st. destruct Hst' as [->|[_ ->]]; simpl; eauto.
  - destruct (h !! state) as [st0|]; simpl; [|intros ?; right; eauto].
    intros (st & ? & [->|[_ ->]])%heap_alter_lookup; right; eauto.
  - unfold add_transition_heap.
    destruct (h !! f); [|intros ?; right; eauto].
    destruct (h !! t); [|intros ?; right; eauto].
    intros (st & ? & [->|[_ ->]])%heap_alter_lookup; right; simpl; eauto 8.
Qed.

Section table_invariant.
(** A property [P] of target lists that [append_new] establishes is
    kept by every table of the store, whatever the engine is asked. *)
Variable P : list string → Prop.
Hypothesis P_append_new : ∀ t l, (l = [] ∨ P l) → P (append_new t l).

Lemma tables_step (w : World) (o : op) :
  tables P w.1 → tables P (step w o).1.
Proof.
  intros Hw r st' c l Hst' Hl.
  apply step_lookup in Hst' as [[n ->]|(st & Hst & _ & [Heq|(sym & t & Heq)])].
  - done.
  - rewrite Heq in Hl. eauto.
  - rewrite Heq, add_target_lookup in Hl. case_decide; [|eauto].
    injection Hl as <-. apply P_append_new.
    destruct (transitions st !! sym) eqn:?; simpl; eauto.
Qed.

Lemma tables_run (w : World) (ops : list op) :
  tables P w.1 → tables P (run w ops).1.
Proof.
  revert w. induction ops as [|o ops IH]; intros w Hw; [done|].
  simpl. apply IH. by apply tables_step.
Qed.

Lemma tables_init (dfa : bool) : tables P (init dfa).1.
Proof. intros r st c l Hr. simpl in Hr. by rewrite lookup_nil in Hr. Qed.
End table_invariant.

Lemma append_new_nonempty (t : string) (l : list string) :
  append_new t l ≠ [].
Proof.
  unfold append_new. case_bool_decide as Hin.
  - intros ->. by apply elem_of_nil in Hin.
  - by destruct l.
Qed.

Lemma append_new_nodup (t : string) (l : list string) :
  NoDup l → NoDup (append_new t l).
Proof.
  unfold append_new. intros Hl. case_bool_decide; [done|].
  apply NoDup_app. repeat split; [done| |apply NoDup_singleton].
  intros x Hx ->%list_elem_of_singleton. done.
Qed.

Lemma run_targets_nonempty (dfa : bool) (ops : list op) :
  targets_nonempty (run (init dfa) ops).1.
Proof.
  apply (tables_run (λ l, l ≠ [])); [|apply tables_init].
  intros t l _. apply append_new_nonempty.
Qed.

Lemma run_targets_nodup (w : World) (ops : list op) :
  targets_nodup w.1 → targets_nodup (run w ops).1.
Proof.
  apply (tables_run NoDup).
  intros t l [->|Hl]; apply append_new_nodup; [apply NoDup_nil_2|done].
Qed.

Lemma targets_nonempty_automaton (w : World) :
  targets_nonempty w.1 → automaton_targets_nonempty w.
Proof.
  intros Hw n st c l Hst. unfold get_state in Hst.
  destruct (states w.2 !! n) as [r|]; simpl in Hst; [|done]. eauto.
Qed.

Lemma simulate_dfa_witness :
  simulate dfa_ab "ab"
  = Return (spec_dfa_accepts dfa_ab "q0" (chars "ab")).
Proof.
  apply (simulate_dfa dfa_ab "q0" "ab").
  - reflexivity.
  - reflexivity.
  - reflexivity.
  - apply targets_nonempty_automaton, run_targets_nonempty.
Defined.

(** C1, as stated, fails for a start state named by the empty string:
    the guard [if not self.start_state] takes the empty name for no start
    state.  With such a state set as start and accepting, the walk on
    the empty input ends in the start state, an accept state, and
    [simulate] returns false. *)
Lemma simulate_dfa_empty_start_name :
  is_dfa (run (init true) build_empty_start).2 = true
  ∧ start_state (run (init true) build_empty_start).2 = Some ""
  ∧ get_state (run (init true) build_empty_start).1
              (run (init true) build_empty_start).2 ""
    = Some (mkState "" true true ∅)
  ∧ spec_dfa_accepts (run (init true) build_empty_start) "" (chars "")
    = true
  ∧ simulate (run (init true) build_empty_start) "" = Return false
  ∧ simulate (run (init true) build_empty_start) ""
    ≠ Return (spec_dfa_accepts (run (init true) build_empty_start)
                "" (chars "")).
Proof.
  repeat split; try (vm_compute; reflexivity).
  vm_compute. discriminate.
Qed.

(** The engine operations never change the mode. *)
Lemma step_is_dfa (w : World) (o : op) : is_dfa (step w o).2 = is_dfa w.2.
Proof.
  destruct w as [h a], o as [n|r|r|r|f c t]; simpl; try done;
    by destruct (h !! r).
Qed.

Lemma run_is_dfa (w : World) (ops : list op) :
  is_dfa (run w ops).2 = is_dfa w.2.
Proof.
  revert w. induction ops as [|o ops IH]; intros w; [done|].
  simpl. by rewrite IH, step_is_dfa.
Qed.

Lemma simulate_dfa_returns (w : World) (input_str : string) :
  is_dfa w.2 = true → automaton_targets_nonempty w →
  ∃ b, simulate w input_str = Return b.
Proof.
  intros Hdfa Hne.
  pose proof (λ q, dfa_loop_spec w q (chars input_str) Hne) as Hloop.
  destruct w as [h a]; cbn [fst snd] in *. unfold simulate.
  destruct (negb (truthy (start_state a))); [by exists false|].
  destruct (start_state a) as [start|]; [|by exists false].
  rewrite Hdfa, Hloop. eauto.
Qed.

(** The NFA branch raises nothing but [KeyError]. *)
Lemma nfa_inner_raise (h : heap) (a : Automaton) (c : string)
    (names : list string) (acc : gset string) (e : exn) :
  nfa_inner h a c names acc = Raise e → e = KeyError.
Proof.
  revert acc. induction names as [|n names IH]; intros acc; simpl; [done|].
  destruct (get_state h a n); [apply IH|congruence].
Qed.

Lemma nfa_loop_raise (h : heap) (a : Automaton) (frontier : gset string)
    (input : list string) (e : exn) :
  nfa_loop h a frontier input = Raise e → e = KeyError.
Proof.
  revert frontier. induction input as [|c rest IH]; intros F; simpl; [done|].
  destruct (nfa_step h a F c) as [F'|e'] eqn:Hstep; simpl.
  - apply IH.
  - intros [= <-]. by apply nfa_inner_raise in Hstep.
Qed.

(** C10: after any sequence of engine operations on new states, every
    symbol of every transition table has a non-empty target list; so, in
    DFA mode, [simulate] never fails on element 0 of a target list and
    returns a boolean. *)
Theorem add_transition_targets_nonempty (dfa : bool) (ops : list op)
    (input_str : string) :
  targets_nonempty (run (init dfa) ops).1
  ∧ simulate (run (init dfa) ops) input_str ≠ Raise IndexError
  ∧ ∃ b, simulate (run (init true) ops) input_str = Return b.
Proof.
  assert (∀ d, automaton_targets_nonempty (run (init d) ops)) as Hne.
  { intros d. apply targets_nonempty_automaton, run_targets_nonempty. }
  split; [apply run_targets_nonempty|]. split.
  - destruct dfa.
    + destruct (simulate_dfa_returns (run (init true) ops) input_str)
        as [b ->]; [by rewrite run_is_dfa|done|done].
    + pose proof (run_is_dfa (init false) ops) as Hmode.
      destruct (run (init false) ops) as [h a]; simpl in *.
      destruct (negb _); [done|].
      destruct (start_state a); [|done]. rewrite Hmode.
      destruct (nfa_loop _ _ _ _) as [F|e] eqn:Hloop; simpl; [done|].
      apply nfa_loop_raise in Hloop as ->. done.
  - apply simulate_dfa_returns; [by rewrite run_is_dfa|done].
Qed.

(** ** add_transition and duplicates *)

Lemma filter_eq_absent (x : string) (l : list string) :
  x ∉ l → filter (x =.) l = [].
Proof.
  induction l as [|y l IH]; [done|].
  intros [Hne Hl]%not_elem_of_cons.
  rewrite filter_cons_False by done. auto.
Qed.

Lemma nodup_count_one (x : string) (l : list string) :
  NoDup l → x ∈ l → length (filter (x =.) l) = 1.
Proof.
  induction 1 as [|y l Hy Hl IH]; [by intros ?%elem_of_nil|].
  intros [->|Hx]%elem_of_cons.
  - rewrite filter_cons_True by done.
    by rewrite filter_eq_absent.
  - rewrite filter_cons_False by (intros ->; done). auto.
Qed.

Lemma elem_of_append_new (t : string) (l : list string) :
  t ∈ append_new t l.
Proof.
  unfold append_new. case_bool_decide; [done|].
  apply elem_of_app. right. by apply list_elem_of_singleton.
Qed.

Lemma append_new_present (t : string) (l : list string) :
  t ∈ l → append_new t l = l.
Proof. intros Hin. unfold append_new. by rewrite bool_decide_eq_true_2. Qed.

Lemma add_target_twice (symbol t : string) (trans : gmap string (list string)) :
  add_target symbol t (add_target symbol t trans) = add_target symbol t trans.
Proof.
  apply map_eq. intros c. rewrite !add_target_lookup.
  case_decide; [|done]. rewrite decide_True by done. simpl. f_equal.
  apply append_new_present, elem_of_append_new.
Qed.

Lemma add_transition_heap_lookup (h : heap) (from_state to_state : ref)
    (symbol : string) (f t : StateItem) :
  h !! from_state = Some f → h !! to_state = Some t →
  add_transition_heap h from_state symbol to_state
  = alter (with_transitions (add_target symbol (name t) (transitions f)))
          from_state h.
Proof.
  intros Hf Ht. unfold add_transition_heap. rewrite Hf, Ht.
  apply list_alter_ext; [|done]. intros x. rewrite Hf. by intros [= <-].
Qed.

Lemma add_transitions_run (w : World) (calls : list (ref * string * ref)) :
  add_transitions w calls
  = run w ((λ c, AddTransition c.1.1 c.1.2 c.2) <$> calls).
Proof.
  revert w. induction calls as [|c calls IH]; intros w; [done|].
  simpl. apply IH.
Qed.

(** C7: in a store without duplicate targets, two calls of
    [add_transition] with the same source, symbol and destination leave
    the name of the destination exactly once in the target list of the
    source for that symbol (the second call changes nothing), and any
    sequence of [add_transition] calls keeps every target list free of
    duplicates. *)
Theorem add_transition_no_duplicates (w : World) (from_state to_state : ref)
    (symbol : string) (f t : StateItem) (calls : list (ref * string * ref)) :
  targets_nodup w.1 →
  w.1 !! from_state = Some f →
  w.1 !! to_state = Some t →
  let w1 := add_transition w from_state symbol to_state in
  let w2 := add_transition w1 from_state symbol to_state in
  w2 = w1
  ∧ (∃ f' l, w2.1 !! from_state = Some f'
             ∧ transitions f' !! symbol = Some l
             ∧ length (filter (name t =.) l) = 1)
  ∧ targets_nodup (add_transitions w calls).1.
Proof.
  intros Hnd Hf Ht w1 w2.
  set (tr1 := add_target symbol (name t) (transitions f)).
  assert (w1.1 = alter (with_transitions tr1) from_state w.1) as Hh1.
  { by apply add_transition_heap_lookup. }
  assert (w1.1 !! from_state = Some (with_transitions tr1 f)) as Hf1.
  { rewrite Hh1, list_lookup_alter_eq, Hf. done. }
  assert (∃ t1, w1.1 !! to_state = Some t1 ∧ name t1 = name t) as (t1 & Ht1 & Hn).
  { rewrite Hh1. destruct (decide (from_state = to_state)) as [->|Hne].
    - rewrite list_lookup_alter_eq, Ht. simpl. eauto.
    - rewrite list_lookup_alter_ne by done. eauto. }
  assert (w2 = w1) as Hw2.
  { apply injective_projections; [|done]. unfold w2, add_transition.
    cbn [fst snd].
    rewrite (add_transition_heap_lookup _ _ _ _ _ _ Hf1 Ht1).
    rewrite Hn, Hh1, list_alter_alter_eq.
    apply list_alter_ext; [|done]. intros x _. simpl.
    unfold with_transitions; simpl. f_equal. apply add_target_twice. }
  split; [done|]. split.
  - rewrite Hw2. eexists _, _. split; [exact Hf1|]. simpl. split.
    + unfold tr1. rewrite add_target_lookup. by rewrite decide_True.
    + apply nodup_count_one; [|apply elem_of_append_new].
      apply append_new_nodup.
      destruct (transitions f !! symbol) as [l|] eqn:Hl; simpl.
      * exact (Hnd _ _ _ _ Hf Hl).
      * apply NoDup_nil_2.
  - rewrite add_transitions_run. by apply run_targets_nodup.
Qed.

Lemma add_transition_no_duplicates_witness :
  let w1 := add_transition dfa_ab 0 "a" 1 in
  let w2 := add_transition w1 0 "a" 1 in
  w2 = w1
  ∧ (∃ f' l, w2.1 !! 0 = Some f'
             ∧ transitions f' !! "a" = Some l
             ∧ length (filter ("q1" =.) l) = 1)
  ∧ targets_nodup (add_transitions dfa_ab [(0, "a", 1); (0, "a", 0)]).1.
Proof.
  eapply (add_transition_no_duplicates dfa_ab 0 1 "a"
            _ (mkState "q1" true false {["b" := ["q1"]]})).
  - apply run_targets_nodup, tables_init.
  - reflexivity.
  - reflexivity.
Defined.

(** ** set_accept *)

(** C9: a second [set_accept] on the same state changes nothing: after
    one call or two the flag [is_accept] is true and the name of the
    state is in [accept_states], once; no name leaves [accept_states]. *)
Theorem set_accept_idempotent (w : World) (state : ref) (st : StateItem) :
  w.1 !! state = Some st →
  let w1 := set_accept w state in
  set_accept w1 state = w1
  ∧ is_accept <$> w1.1 !! state = Some true
  ∧ name st ∈ accept_states w1.2
  ∧ length (filter (name st =.) (elements (accept_states w1.2))) = 1
  ∧ accept_states w.2 ⊆ accept_states w1.2.
Proof.
  destruct w as [h a]. cbn [fst snd]. intros Hst. simpl.
  rewrite Hst. cbn [fst snd accept_states].
  assert (alter (StateItem_set_accept true) state h !! state
          = Some (StateItem_set_accept true st)) as Hst1.
  { by rewrite list_lookup_alter_eq, Hst. }
  rewrite Hst1. cbn [name StateItem_set_accept fmap option_fmap option_map
                     is_accept states start_state accept_states is_dfa].
  repeat split.
  - unfold set_accept. rewrite Hst1. simpl. f_equal.
    + rewrite list_alter_alter_eq. by apply list_alter_ext.
    + f_equal. by rewrite (assoc_L (∪)), (idemp_L (∪)).
  - set_solver.
  - apply nodup_count_one; [apply NoDup_elements|].
    apply elem_of_elements. set_solver.
  - set_solver.
Qed.

Lemma set_accept_idempotent_witness :
  let w1 := set_accept dfa_ab 1 in
  set_accept w1 1 = w1
  ∧ is_accept <$> w1.1 !! 1 = Some true
  ∧ "q1" ∈ accept_states w1.2
  ∧ length (filter ("q1" =.) (elements (accept_states w1.2))) = 1
  ∧ accept_states dfa_ab.2 ⊆ accept_states w1.2.
Proof.
  apply (set_accept_idempotent dfa_ab 1
           (mkState "q1" true false {["b" := ["q1"]]})).
  reflexivity.
Defined.

(** ** NFA mode: the empty frontier *)

Lemma nfa_loop_app (h : heap) (a : Automaton) (frontier : gset string)
    (input1 input2 : list string) :
  nfa_loop h a frontier (input1 ++ input2)
  = (reached ← nfa_loop h a frontier input1; nfa_loop h a reached input2).
Proof.
  revert frontier. induction input1 as [|c rest IH]; intros F; simpl; [done|].
  destruct (nfa_step h a F c) as [F'|e]; simpl; [apply IH|done].
Qed.

Lemma nfa_step_empty (h : heap) (a : Automaton) (c : string) :
  nfa_step h a ∅ c = Return ∅.
Proof. unfold nfa_step. by rewrite elements_empty. Qed.

Lemma nfa_loop_empty (h : heap) (a : Automaton) (input : list string) :
  nfa_loop h a ∅ input = Return ∅.
Proof.
  induction input as [|c rest IH]; simpl; [done|].
  by rewrite nfa_step_empty.
Qed.

(** C8: in NFA mode, an empty frontier stays empty at every further
    character; when the frontier is empty after a prefix of the input,
    it is empty after the whole input and [simulate] rejects, however
    long the rest of the input is. *)
Theorem nfa_empty_frontier_rejects (w : World) (start seen rest : string) :
  is_dfa w.2 = false →
  start_state w.2 = Some start →
  truthy (Some start) = true →
  nfa_loop w.1 w.2 {[start]} (chars seen) = Return ∅ →
  (∀ c, nfa_step w.1 w.2 ∅ c = Return ∅)
  ∧ nfa_loop w.1 w.2 {[start]} (chars (seen +:+ rest)) = Return ∅
  ∧ simulate w (seen +:+ rest) = Return false.
Proof.
  intros Hmode Hstart Hset Hseen.
  assert (nfa_loop w.1 w.2 {[start]} (chars (seen +:+ rest)) = Return ∅)
    as Hall.
  { rewrite chars_app, nfa_loop_app, Hseen. simpl. apply nfa_loop_empty. }
  split; [intros c; apply nfa_step_empty|]. split; [done|].
  destruct w as [h a]; cbn [fst snd] in *. unfold simulate.
  rewrite Hstart, Hset, Hmode. simpl negb. cbv iota.
  rewrite Hall. simpl. unfold any_accept. by rewrite elements_empty.
Qed.

Lemma nfa_empty_frontier_rejects_witness :
  (∀ c, nfa_step nfa_fork.1 nfa_fork.2 ∅ c = Return ∅)
  ∧ nfa_loop nfa_fork.1 nfa_fork.2 {["q0"]} (chars ("aa" +:+ "aaab"))
    = Return ∅
  ∧ simulate nfa_fork ("aa" +:+ "aaab") = Return false.
Proof.
  apply (nfa_empty_frontier_rejects nfa_fork "q0" "aa" "aaab");
    vm_compute; reflexivity.
Defined.

(** ** NFA mode: the frontier *)

Lemma nfa_inner_known (h : heap) (a : Automaton) (c : string)
    (names : list string) (acc : gset string) :
  (∀ q, q ∈ names → is_Some (get_state h a q)) →
  nfa_inner h a c names acc
  = Return (acc ∪ ⋃ ((λ q, spec_targets (h, a) q c) <$> names)).
Proof.
  revert acc. induction names as [|n names IH]; intros acc Hknown; simpl.
  - f_equal. by rewrite (right_id_L ∅ (∪)).
  - destruct (Hknown n) as [st Hst]; [by left|].
    rewrite Hst, IH by (intros q Hq; apply Hknown; by right).
    f_equal. unfold spec_targets at 2. cbn [fst snd]. rewrite Hst.
    destruct (transitions st !! c).
    + by rewrite (assoc_L (∪)).
    + by rewrite (left_id_L ∅ (∪)).
Qed.

Lemma nfa_inner_unknown (h : heap) (a : Automaton) (c : string)
    (names : list string) (acc : gset string) (q : string) :
  q ∈ names → get_state h a q = None →
  nfa_inner h a c names acc = Raise KeyError.
Proof.
  revert acc. induction names as [|n names IH]; intros acc Hq Hnone.
  - by apply elem_of_nil in Hq.
  - simpl. destruct (get_state h a n) as [st|] eqn:Hst; [|done].
    apply elem_of_cons in Hq as [->|Hq]; [congruence|]. by apply IH.
Qed.

(** One character: the union of the contributions of the states of the
    frontier when they are all in the mapping, [KeyError] otherwise. *)
Lemma nfa_step_known (w : World) (frontier : gset string) (c : string) :
  frontier_known w frontier →
  nfa_step w.1 w.2 frontier c = Return (spec_nfa_step w frontier c).
Proof.
  intros Hknown. destruct w as [h a]. unfold nfa_step, spec_nfa_step.
  rewrite nfa_inner_known.
  - f_equal. by rewrite (left_id_L ∅ (∪)).
  - intros q Hq. apply Hknown. by apply elem_of_elements.
Qed.

Lemma nfa_step_unknown (w : World) (frontier : gset string) (c q : string) :
  q ∈ frontier → get_state w.1 w.2 q = None →
  nfa_step w.1 w.2 frontier c = Raise KeyError.
Proof.
  intros Hq Hnone. eapply nfa_inner_unknown; [|done].
  by apply elem_of_elements.
Qed.

Lemma spec_nfa_step_known (w : World) (frontier : gset string) (c : string) :
  targets_known w → frontier_known w (spec_nfa_step w frontier c).
Proof.
  intros Hclosed t Ht. unfold spec_nfa_step in Ht.
  apply elem_of_union_list in Ht as (X & HX & Ht).
  apply list_elem_of_fmap in HX as (q & -> & _).
  unfold spec_targets in Ht.
  destruct (get_state w.1 w.2 q) as [st|] eqn:Hst; [|set_solver].
  destruct (transitions st !! c) as [l|] eqn:Hl; [|set_solver].
  apply elem_of_list_to_set in Ht. eauto.
Qed.

Lemma nfa_loop_known (w : World) (frontier : gset string)
    (input : list string) :
  targets_known w → frontier_known w frontier →
  nfa_loop w.1 w.2 frontier input
  = Return (foldl (spec_nfa_step w) frontier input).
Proof.
  intros Hclosed. revert frontier.
  induction input as [|c rest IH]; intros F HF; simpl; [done|].
  rewrite nfa_step_known by done. simpl.
  apply IH. by apply spec_nfa_step_known.
Qed.

Lemma any_accept_spec (a : Automaton) (frontier : gset string) :
  any_accept a frontier
  = bool_decide (∃ q, q ∈ frontier ∧ q ∈ accept_states a).
Proof.
  unfold any_accept.
  destruct (existsb _ _) eqn:Hex; symmetry.
  - apply bool_decide_eq_true_2.
    apply existsb_exists in Hex as (q & Hq & Hacc).
    exists q. split.
    + by apply elem_of_elements, list_elem_of_In.
    + by apply bool_decide_eq_true in Hacc.
  - apply bool_decide_eq_false_2. intros (q & Hq & Hacc).
    apply not_true_iff_false in Hex. apply Hex.
    apply existsb_exists. exists q. split.
    + by apply list_elem_of_In, elem_of_elements.
    + by apply bool_decide_eq_true_2.
Qed.

(** In NFA mode, when the start state and every destination are states
    of the automaton, [simulate] returns what the frontier of the
    specification gives. *)
Lemma simulate_nfa_known (w : World) (start input_str : string) :
  is_dfa w.2 = false →
  start_state w.2 = Some start →
  truthy (Some start) = true →
  is_Some (get_state w.1 w.2 start) →
  targets_known w →
  simulate w input_str = Return (spec_nfa_accepts w start (chars input_str)).
Proof.
  intros Hmode Hstart Hset Hs Hclosed.
  assert (frontier_known w {[start]}) as Hknown.
  { intros q ->%elem_of_singleton. done. }
  pose proof (nfa_loop_known w {[start]} (chars input_str) Hclosed Hknown)
    as Hloop.
  destruct w as [h a]; cbn [fst snd] in *. unfold simulate.
  rewrite Hstart, Hset, Hmode. simpl negb. cbv iota.
  rewrite Hloop. simpl. f_equal. apply any_accept_spec.
Qed.

(** ** Names that are not in the state mapping *)

(** C3: in NFA mode [simulate] raises [KeyError] at the character that
    follows a move to a destination that is not a key of the state
    mapping, where the specification has it return false; in DFA mode the same
    automaton and input give false. *)
Theorem simulate_nfa_KeyError :
  simulate nfa_dangling "aa" = Raise KeyError
  ∧ simulate dfa_dangling "aa" = Return false.
Proof. split; vm_compute; reflexivity. Qed.

(** C2: on an automaton with a destination that is not a key of the
    state mapping, [q0 --a--> q1], [q0 --a--> ghost], [q1 --a--> q1] with
    [q1] accepting, the frontier of the specification is [{q1, ghost}]
    after one [a] and [{q1}] after two, so the expected answer on [aa] is
    true; [simulate] raises [KeyError] instead of returning it. *)
Theorem simulate_nfa_frontier_KeyError :
  spec_frontier nfa_dangling_loop "q0" (chars "a") = {["q1"; "ghost"]}
  ∧ spec_frontier nfa_dangling_loop "q0" (chars "aa") = {["q1"]}
  ∧ spec_nfa_accepts nfa_dangling_loop "q0" (chars "aa") = true
  ∧ simulate nfa_dangling_loop "aa" = Raise KeyError
  ∧ simulate nfa_dangling_loop "a" = Return true.
Proof. repeat split; vm_compute; reflexivity. Qed.

(** ** The start flag *)

Lemma step_names (w : World) (o : op) (r : ref) (st : StateItem) :
  w.1 !! r = Some st →
  ∃ st', (step w o).1 !! r = Some st' ∧ name st' = name st.
Proof.
  destruct w as [h a]. cbn [fst]. intros Hst.
  destruct o as [n|state|state|state|f c t]; simpl.
  - exists st. split; [|done]. by apply lookup_app_l_Some.
  - destruct (h !! state); eauto.
  - destruct (h !! state) as [st0|]; simpl; [|eauto].
    assert (∃ st1, clear_old_start h a (name st0) !! r = Some st1
                   ∧ name st1 = name st) as (st1 & Hst1 & <-).
    { unfold clear_old_start. destruct (_ && _); [|eauto].
      destruct (start_state a) as [s0|]; [|eauto].
      destruct (states a !! s0); [|eauto].
      rewrite (heap_alter_lookup_Some _ _ _ _ _ Hst).
      case_decide; simpl; eauto. }
    rewrite (heap_alter_lookup_Some _ _ _ _ _ Hst1).
    case_decide; simpl; eauto.
  - destruct (h !! state) as [st0|]; simpl; [|eauto].
    rewrite (heap_alter_lookup_Some _ _ _ _ _ Hst).
    case_decide; simpl; eauto.
  - unfold add_transition_heap.
    destruct (h !! f); [|eauto]. destruct (h !! t); [|eauto].
    rewrite (heap_alter_lookup_Some _ _ _ _ _ Hst).
    case_decide; simpl; eauto.
Qed.

(** Apart from [set_start], no operation sets a start flag. *)
Lemma step_flags (w : World) (o : op) (r : ref) (st' : StateItem) :
  (∀ state, o ≠ SetStart state) →
  (step w o).1 !! r = Some st' → is_start st' = true →
  ∃ st, w.1 !! r = Some st ∧ is_start st = true ∧ name st = name st'.
Proof.
  destruct w as [h a]. intros Ho.
  destruct o as [n|state|state|state|f c t]; simpl.
  - intros [[_ ?]|[_ <-]]%lookup_snoc_Some; [eauto|done].
  - destruct (h !! state); simpl; eauto.
  - by destruct (Ho state).
  - destruct (h !! state) as [st0|]; simpl; [|eauto].
    intros (st & ? & [->|[_ ->]])%heap_alter_lookup; simpl; eauto.
  - unfold add_transition_heap.
    destruct (h !! f); [|eauto]. destruct (h !! t); [|eauto].
    intros (st & ? & [->|[_ ->]])%heap_alter_lookup; simpl; eauto.
Qed.

Lemma step_states (w : World) (o : op) :
  (∀ state, o ≠ AddState state) →
  states (step w o).2 = states w.2 .
Proof.
  destruct w as [h a]. intros Ho.
  destruct o as [n|state|state|state|f c t]; simpl; try done.
  - by destruct (Ho state).
  - by destruct (h !! state).
  - by destruct (h !! state).
Qed.

Lemma step_start_state (w : World) (o : op) :
  (∀ state, o ≠ SetStart state) →
  start_state (step w o).2 = start_state w.2 .
Proof.
  destruct w as [h a]. intros Ho.
  destruct o as [n|state|state|state|f c t]; simpl; try done.
  - by destruct (h !! state).
  - by destruct (Ho state).
  - by destruct (h !! state).
Qed.

Lemma in_mapping_true (w : World) (r : ref) :
  in_mapping w r = true ↔
  ∃ st, w.1 !! r = Some st ∧ states w.2 !! name st = Some r.
Proof.
  unfold in_mapping. destruct (w.1 !! r) as [st|]; split.
  - intros ?%bool_decide_eq_true. eauto.
  - intros (? & [= <-] & ?). by apply bool_decide_eq_true.
  - done.
  - by intros (? & ? & _).
Qed.

(** After [set_start] on a state of the automaton, the flag is set on
    that object and on no other. *)
Lemma set_start_flags (w : World) (state r : ref) (st st' : StateItem) :
  keyed_by_name w → start_flag_recorded w →
  w.1 !! state = Some st → states w.2 !! name st = Some state →
  (set_start w state).1 !! r = Some st' →
  (is_start st' = true ↔ r = state).
Proof.
  destruct w as [h a]. cbn [fst snd]. intros HK HF Hst Hmap.
  simpl. rewrite Hst. cbn [fst].
  assert (∀ r1 st1, clear_old_start h a (name st) !! r1 = Some st1 →
                    is_start st1 = true → r1 = state) as Hclear.
  { intros r1 st1. unfold clear_old_start.
    destruct (truthy (start_state a)
              && negb (bool_decide (start_state a = Some (name st))))
      eqn:Hcond.
    - apply andb_true_iff in Hcond as [Hset Hne].
      apply negb_true_iff, bool_decide_eq_false in Hne.
      destruct (start_state a) as [s0|] eqn:Hs0; [|done].
      destruct (states a !! s0) as [old|] eqn:Hold.
      + intros Hst1 Hflag.
        pose proof (heap_alter_lookup _ _ _ _ _ Hst1)
          as (st0 & Hst0 & [->|[-> ->]]); [|done].
        destruct (HF _ _ Hst0 Hflag) as [Hs Hm].
        cbn [snd] in Hs, Hm. rewrite Hs0 in Hs. injection Hs as ->.
        rewrite Hold in Hm. injection Hm as ->.
        rewrite list_lookup_alter_eq, Hst0 in Hst1.
        injection Hst1 as Heq. by rewrite <- Heq in Hflag.
      + intros Hst1 Hflag. destruct (HF _ _ Hst1 Hflag) as [Hs Hm].
        cbn [snd] in Hs, Hm. rewrite Hs0 in Hs. injection Hs as ->.
        congruence.
    - intros Hst1 Hflag. destruct (HF _ _ Hst1 Hflag) as [Hs Hm].
      cbn [snd] in Hs, Hm. rewrite Hs in Hcond. simpl in Hcond.
      apply andb_false_iff in Hcond as [Hempty|Hsame].
      + destruct (HK _ _ Hm) as [Hne _].
        apply truthy_Some_ne in Hne. simpl in Hne. congruence.
      + apply negb_false_iff, bool_decide_eq_true in Hsame.
        injection Hsame as Hsame. rewrite Hsame in Hm. congruence. }
  intros Hst'.
  pose proof (heap_alter_lookup _ _ _ _ _ Hst')
    as (st1 & Hst1 & [->|[-> ->]]); [|done].
  split; [by apply Hclear|].
  intros ->. rewrite list_lookup_alter_eq, Hst1 in Hst'.
  by injection Hst' as <-.
Qed.

Lemma set_start_start_state (w : World) (state : ref) (st : StateItem) :
  w.1 !! state = Some st →
  start_state (set_start w state).2 = Some (name st).
Proof. destruct w as [h a]. cbn [fst]. intros Hst. simpl. by rewrite Hst. Qed.

Lemma start_invariant_step (w : World) (o : op) :
  start_checked w o = true →
  keyed_by_name w → start_flag_recorded w →
  keyed_by_name (step w o) ∧ start_flag_recorded (step w o).
Proof.
  intros Hok HK HF.
  assert ((∀ s, o ≠ AddState s) → keyed_by_name (step w o)) as HKgen.
  { intros Ho n r. rewrite step_states by done. intros Hn.
    destruct (HK _ _ Hn) as (Hne & st & Hst & Hname).
    split; [done|].
    destruct (step_names w o r st Hst) as (st' & Hst' & Hname').
    exists st'. split; [done|congruence]. }
  assert ((∀ s, o ≠ AddState s) → (∀ s, o ≠ SetStart s) →
          start_flag_recorded (step w o)) as HFgen.
  { intros Ho1 Ho2 r st' Hst' Hflag.
    rewrite step_states, step_start_state by done.
    destruct (step_flags w o r st' Ho2 Hst' Hflag) as (st & Hst & Hfl & <-).
    eauto. }
  destruct o as [n|state|state|state|f c t];
    try (split; [apply HKgen|apply HFgen]; done).
  - (* add_state *)
    destruct w as [h a]. simpl in Hok |- *.
    destruct (h !! state) as [st|] eqn:Hst; [|done].
    apply andb_true_iff in Hok as [Hname Hfree].
    apply bool_decide_eq_true in Hfree. split.
    + intros n r. cbn [fst snd states]. rewrite lookup_insert.
      case_decide as Hn.
      * intros [= <-]. subst n. split; [by apply truthy_Some_ne|eauto].
      * apply HK.
    + intros r st' Hst' Hflag. cbn [fst snd states start_state] in *.
      destruct (HF _ _ Hst' Hflag) as [Hs Hm]. cbn [snd] in Hs, Hm.
      split; [done|]. rewrite lookup_insert_ne; [done|]. congruence.
  - (* set_start *)
    apply in_mapping_true in Hok as (st & Hst & Hmap).
    split; [by apply HKgen|].
    intros r st' Hst' Hflag.
    apply (set_start_flags w state r st st' HK HF Hst Hmap Hst') in Hflag
      as ->.
    destruct (step_names w (SetStart state) state st Hst)
      as (st'' & Hst'' & Hname).
    rewrite Hst' in Hst''. injection Hst'' as <-.
    rewrite Hname. split.
    + by apply set_start_start_state.
    + by rewrite (step_states w (SetStart state)).
Qed.

Lemma start_invariant_run (w w' : World) (ops : list op) :
  run_checked start_checked w ops = Some w' →
  keyed_by_name w → start_flag_recorded w →
  keyed_by_name w' ∧ start_flag_recorded w'.
Proof.
  revert w. induction ops as [|o ops IH]; intros w; simpl.
  - intros [= <-]. done.
  - destruct (start_checked w o) eqn:Hok; [|done].
    intros Hrun HK HF.
    destruct (start_invariant_step w o Hok HK HF). eauto.
Qed.

Lemma start_invariant_init (dfa : bool) :
  keyed_by_name (init dfa) ∧ start_flag_recorded (init dfa).
Proof.
  split.
  - intros n r Hn. simpl in Hn. by rewrite lookup_empty in Hn.
  - intros r st Hst. simpl in Hst. by rewrite lookup_nil in Hst.
Qed.

Lemma get_state_Some (w : World) (n : string) (st : StateItem) :
  get_state w.1 w.2 n = Some st ↔
  ∃ r, states w.2 !! n = Some r ∧ w.1 !! r = Some st.
Proof.
  unfold get_state. destruct (states w.2 !! n) as [r|]; simpl.
  - split; [eauto|]. by intros (? & [= <-] & ?).
  - split; [done|]. by intros (? & ? & _).
Qed.

Lemma start_invariant_at_most_one (w : World) :
  keyed_by_name w → start_flag_recorded w → at_most_one_start w.
Proof.
  intros HK HF n1 n2 s1 s2.
  intros (r1 & Hn1 & Hs1)%get_state_Some Hf1.
  intros (r2 & Hn2 & Hs2)%get_state_Some Hf2.
  destruct (HK _ _ Hn1) as (_ & s1' & Hs1' & <-).
  destruct (HK _ _ Hn2) as (_ & s2' & Hs2' & <-).
  destruct (HF _ _ Hs1 Hf1) as [Hst1 _].
  destruct (HF _ _ Hs2 Hf2) as [Hst2 _].
  congruence.
Qed.

(** C6, as the code has it: when [add_state] is given states with a new,
    non-empty name and [set_start] is given states of the automaton, at
    most one state of the automaton has its start flag set after any
    sequence of engine operations; and [set_start] on [A] then on [B],
    two distinct states of the automaton, leaves the flag set on [B],
    cleared on [A] and on every other state, with [start_state] the name
    of [B]. *)
Theorem set_start_exclusive (dfa : bool) (ops : list op) (w : World) :
  run_checked start_checked (init dfa) ops = Some w →
  at_most_one_start w
  ∧ ∀ A B : ref,
      in_mapping w A = true → in_mapping w B = true → A ≠ B →
      let w' := set_start (set_start w A) B in
      is_start <$> w'.1 !! B = Some true
      ∧ is_start <$> w'.1 !! A = Some false
      ∧ start_state w'.2 = name <$> w'.1 !! B
      ∧ (∀ r st, w'.1 !! r = Some st → is_start st = true → r = B)
      ∧ at_most_one_start w'.
Proof.
  intros Hrun.
  destruct (start_invariant_init dfa) as [HK0 HF0].
  destruct (start_invariant_run _ _ _ Hrun HK0 HF0) as [HK HF].
  split; [by apply start_invariant_at_most_one|].
  intros A B HA HB Hne w'.
  destruct (start_invariant_step w (SetStart A) HA HK HF) as [HK1 HF1].
  simpl step in HK1, HF1. set (w1 := set_start w A) in *.
  apply in_mapping_true in HA as (stA & HstA & HmA).
  apply in_mapping_true in HB as (stB & HstB & HmB).
  destruct (step_names w (SetStart A) B stB HstB) as (stB1 & HstB1 & HnB1).
  destruct (step_names w (SetStart A) A stA HstA) as (stA1 & HstA1 & HnA1).
  simpl step in HstB1, HstA1. fold w1 in HstB1, HstA1.
  assert (states w1.2 = states w.2) as Hstates
    by (by apply (step_states w (SetStart A))).
  assert (in_mapping w1 B = true) as HB1.
  { apply in_mapping_true. exists stB1. split; [done|].
    by rewrite Hstates, HnB1. }
  destruct (start_invariant_step w1 (SetStart B) HB1 HK1 HF1) as [HK2 HF2].
  simpl step in HK2, HF2. fold w' in HK2, HF2.
  destruct (step_names w1 (SetStart B) B stB1 HstB1) as (stB2 & HstB2 & HnB2).
  destruct (step_names w1 (SetStart B) A stA1 HstA1) as (stA2 & HstA2 & HnA2).
  simpl step in HstB2, HstA2. fold w' in HstB2, HstA2.
  assert (states w1.2 !! name stB1 = Some B) as HmB1
    by (by rewrite Hstates, HnB1).
  pose proof (set_start_flags w1 B) as Hflags.
  repeat split.
  - rewrite HstB2. simpl. f_equal.
    by apply (Hflags B stB1 stB2 HK1 HF1 HstB1 HmB1 HstB2).
  - rewrite HstA2. simpl. f_equal.
    destruct (is_start stA2) eqn:Hfl; [|done].
    by apply (Hflags A stB1 stA2 HK1 HF1 HstB1 HmB1 HstA2) in Hfl.
  - rewrite HstB2. simpl. rewrite HnB2.
    by apply set_start_start_state.
  - intros r st Hst Hfl.
    by apply (Hflags r stB1 st HK1 HF1 HstB1 HmB1 Hst).
  - by apply start_invariant_at_most_one.
Qed.

Lemma set_start_exclusive_witness :
  at_most_one_start dfa_ab
  ∧ ∀ A B : ref,
      in_mapping dfa_ab A = true → in_mapping dfa_ab B = true → A ≠ B →
      let w' := set_start (set_start dfa_ab A) B in
      is_start <$> w'.1 !! B = Some true
      ∧ is_start <$> w'.1 !! A = Some false
      ∧ start_state w'.2 = name <$> w'.1 !! B
      ∧ (∀ r st, w'.1 !! r = Some st → is_start st = true → r = B)
      ∧ at_most_one_start w'.
Proof.
  apply (set_start_exclusive true build_ab dfa_ab).
  vm_compute. reflexivity.
Defined.

(** C6, as stated, fails twice.  A state made the start state before it
    is added keeps its flag when another state becomes the start state,
    and is then added: two states of the automaton have the flag.  And
    with [A] named by the empty string, [set_start] on [A] then on [B],
    both states of the automaton, leaves the flag of [A] set. *)
Lemma set_start_not_exclusive :
  ¬ at_most_one_start (run (init true) build_two_starts)
  ∧ (let w := run (init true) [NewState ""; NewState "b";
                                AddState 0; AddState 1] in
     let w' := set_start (set_start w 0) 1 in
     in_mapping w 0 = true ∧ in_mapping w 1 = true
     ∧ is_start <$> w'.1 !! 0 = Some true
     ∧ is_start <$> w'.1 !! 1 = Some true
     ∧ ¬ at_most_one_start w').
Proof.
  split; [|repeat split; try (vm_compute; reflexivity)].
  - intros H.
    specialize (H "a" "z" (mkState "a" false true ∅)
                  (mkState "z" false true ∅)).
    by specialize (H eq_refl eq_refl eq_refl eq_refl).
  - intros H.
    specialize (H "" "b" (mkState "" false true ∅)
                  (mkState "b" false true ∅)).
    by specialize (H eq_refl eq_refl eq_refl eq_refl).
Qed.

(** ** Tables rebuilt by the loading loops *)






(** ** The loops of load_automaton on the store *)









(** ** The first loops of load_automaton *)

Lemma step_transitions (w : World) (o : op) (r : ref) (st st' : StateItem) :
  (∀ f c t, o ≠ AddTransition f c t) →
  w.1 !! r = Some st → (step w o).1 !! r = Some st' →
  transitions st' = transitions st.
Proof.
  destruct w as [h a]. cbn [fst]. intros Ho Hst.
  destruct o as [n|state|state|state|f c t]; simpl.
  - rewrite (lookup_app_l_Some _ _ _ _ Hst). by intros [= <-].
  - destruct (h !! state); simpl; rewrite Hst; by intros [= <-].
  - destruct (h !! state) as [st0|]; simpl;
      [|rewrite Hst; by intros [= <-]].
    intros (st1 & Hst1 & Hst')%heap_alter_lookup.
    assert (transitions st1 = transitions st) as <-.
    { revert Hst1. unfold clear_old_start.
      destruct (_ && _); [|rewrite Hst; by intros [= <-]].
      destruct (start_state a) as [s0|]; [|rewrite Hst; by intros [= <-]].
      destruct (states a !! s0); [|rewrite Hst; by intros [= <-]].
      intros (st2 & Hst2 & Hst1)%heap_alter_lookup.
      rewrite Hst in Hst2. injection Hst2 as <-.
      by destruct Hst1 as [->|[_ ->]]. }
    by destruct Hst' as [->|[_ ->]].
  - destruct (h !! state) as [st0|]; simpl;
      [|rewrite Hst; by intros [= <-]].
    intros (st1 & Hst1 & Hst')%heap_alter_lookup.
    rewrite Hst in Hst1. injection Hst1 as <-.
    by destruct Hst' as [->|[_ ->]].
  - by destruct (Ho f c t).
Qed.

Lemma step_accept_states (w : World) (o : op) :
  (∀ state, o ≠ SetAccept state) →
  accept_states (step w o).2 = accept_states w.2 .
Proof.
  destruct w as [h a]. intros Ho.
  destruct o as [n|state|state|state|f c t]; simpl; try done.
  - by destruct (h !! state).
  - by destruct (h !! state).
  - by destruct (Ho state).
Qed.


Lemma loaded_blank_step (base : nat) (w : World) (o : op) :
  (∀ s, o ≠ AddState s) → (∀ f c t, o ≠ AddTransition f c t) →
  loaded_blank base w → loaded_blank base (step w o).
Proof.
  intros Ho1 Ho2 HJ n r. rewrite step_states by done. intros Hn.
  destruct (HJ _ _ Hn) as (Hbase & st & Hst & Hname & Hempty).
  split; [done|].
  destruct (step_names w o r st Hst) as (st' & Hst' & Hname').
  exists st'. split; [done|]. split; [congruence|].
  by rewrite (step_transitions w o r st st').
Qed.

Lemma load_states_spec (w : World) (names : list string) :
  start_state (load_states w names).2 = start_state w.2
  ∧ accept_states (load_states w names).2 = accept_states w.2
  ∧ is_dfa (load_states w names).2 = is_dfa w.2
  ∧ (∀ r st, w.1 !! r = Some st → (load_states w names).1 !! r = Some st)
  ∧ (∀ n r, states (load_states w names).2 !! n = Some r →
       states w.2 !! n = Some r
       ∨ ((length w.1 ≤ r)%nat
          ∧ (load_states w names).1 !! r = Some (StateItem_init n)))
  ∧ dom (states (load_states w names).2)
    = dom (states w.2) ∪ list_to_set names.
Proof.
  revert w. induction names as [|n rest IH]; intros w.
  - simpl. repeat split; eauto. by rewrite (right_id_L ∅ (∪)).
  - set (w1 := (w.1 ++ [StateItem_init n],
                mkAutomaton (<[n := length w.1]> (states w.2))
                  (start_state w.2) (accept_states w.2) (is_dfa w.2))).
    assert (load_states w (n :: rest) = load_states w1 rest) as ->.
    { unfold load_states at 1. simpl foldl. unfold add_state.
      cbn [fst snd].
      by rewrite list_lookup_middle. }
    destruct (IH w1) as (Hs & Ha & Hd & Hext & Hnew & Hdom).
    repeat split; try done.
    + intros r st Hst. apply Hext. unfold w1. cbn [fst].
      by apply lookup_app_l_Some.
    + intros m r Hm. destruct (Hnew m r Hm) as [Hold|[Hlen Hinit]].
      * unfold w1 in Hold. cbn [snd states] in Hold.
        rewrite lookup_insert in Hold. case_decide as Heq.
        -- injection Hold as <-. subst m. right. split; [done|].
           apply Hext. unfold w1. cbn [fst].
           by rewrite list_lookup_middle.
        -- by left.
      * right. split; [|done]. unfold w1 in Hlen. cbn [fst] in Hlen.
        rewrite length_app in Hlen. simpl in Hlen. lia.
    + rewrite Hdom. unfold w1. cbn [snd states].
      rewrite dom_insert_L, list_to_set_cons.
      by rewrite (comm_L (∪) {[n]} (dom _)), <- (assoc_L (∪)).
Qed.

Lemma set_accept_accept_states (w : World) (state : ref) (st : StateItem) :
  w.1 !! state = Some st →
  accept_states (set_accept w state).2 = {[name st]} ∪ accept_states w.2 .
Proof. destruct w as [h a]. cbn [fst]. intros Hst. simpl. by rewrite Hst. Qed.

Lemma load_start_spec (base : nat) (w : World) (start : option string) :
  loaded_blank base w →
  start_state w.2 = None →
  (∀ s, start = Some s → truthy (Some s) = true → is_Some (states w.2 !! s)) →
  ∃ w', load_start w start = Return w'
        ∧ loaded_blank base w'
        ∧ states w'.2 = states w.2
        ∧ accept_states w'.2 = accept_states w.2
        ∧ is_dfa w'.2 = is_dfa w.2
        ∧ truthy (start_state w'.2) = truthy start
        ∧ (truthy start = true → start_state w'.2 = start).
Proof.
  intros HJ Hnone Hknown. unfold load_start.
  destruct (truthy start) eqn:Hset.
  - destruct start as [s|]; [|done].
    destruct (Hknown s eq_refl Hset) as [r Hr]. rewrite Hr.
    destruct (HJ _ _ Hr) as (_ & st & Hst & Hname & _).
    exists (step w (SetStart r)). split; [done|].
    assert (start_state (step w (SetStart r)).2 = Some s) as Hs.
    { simpl step. by rewrite (set_start_start_state w r st), Hname. }
    split; [by apply loaded_blank_step|].
    split; [by apply step_states|].
    split; [by apply step_accept_states|].
    split; [apply step_is_dfa|].
    by rewrite Hs.
  - exists w. rewrite Hnone. done.
Qed.

Lemma load_accept_spec (base : nat) (w : World) (names : list string) :
  loaded_blank base w →
  (∀ n, n ∈ names → is_Some (states w.2 !! n)) →
  ∃ w', load_accept w names = Return w'
        ∧ loaded_blank base w'
        ∧ states w'.2 = states w.2
        ∧ start_state w'.2 = start_state w.2
        ∧ is_dfa w'.2 = is_dfa w.2
        ∧ accept_states w'.2 = list_to_set names ∪ accept_states w.2 .
Proof.
  revert w. induction names as [|n rest IH]; intros w HJ Hknown.
  - exists w. do 5 (split; [done|]).
    simpl. by rewrite (left_id_L ∅ (∪)).
  - destruct (Hknown n) as [r Hr]; [by left|].
    destruct (HJ _ _ Hr) as (_ & st & Hst & Hname & _).
    simpl. rewrite Hr.
    pose proof (step_states w (SetAccept r)) as Hstates.
    simpl step in Hstates.
    destruct (IH (set_accept w r)) as (w' & Hload & HJ' & Hs & Hst' & Hd & Ha).
    { by apply (loaded_blank_step base w (SetAccept r)). }
    { intros m Hm. rewrite Hstates by done. apply Hknown. by right. }
    exists w'. split; [done|]. split; [done|].
    split; [by rewrite Hs, Hstates|].
    split; [rewrite Hst'; by apply (step_start_state w (SetAccept r))|].
    split; [rewrite Hd; by apply (step_is_dfa w (SetAccept r))|].
    rewrite Ha, (set_accept_accept_states w r st), Hname by done.
    by rewrite (assoc_L (∪)), (comm_L (∪) (list_to_set rest) {[n]}).
Qed.

(** ** The saved record *)

Lemma save_transitions_lookup (h : heap) (objs : list ref) (n : string)
    (tbl : gmap string (list string)) :
  (∀ r r' st st', r ∈ objs → r' ∈ objs →
     h !! r = Some st → h !! r' = Some st' → name st = name st' → r = r') →
  save_transitions h objs !! n = Some tbl ↔
  ∃ r st, r ∈ objs ∧ h !! r = Some st ∧ name st = n ∧ transitions st = tbl.
Proof.
  unfold save_transitions.
  induction objs as [|r objs IH] using rev_ind; intros Huniq.
  - simpl. rewrite lookup_empty. split; [done|].
    by intros (r & st & ?%elem_of_nil & _).
  - rewrite foldl_snoc.
    assert (∀ r1 r2 st1 st2, r1 ∈ objs → r2 ∈ objs →
              h !! r1 = Some st1 → h !! r2 = Some st2 →
              name st1 = name st2 → r1 = r2) as Huniq'.
    { intros r1 r2 st1 st2 H1 H2. apply Huniq; apply elem_of_app; by left. }
    specialize (IH Huniq').
    assert (r ∈ objs ++ [r]) as Hr.
    { apply elem_of_app. right. by apply list_elem_of_singleton. }
    destruct (h !! r) as [s|] eqn:Hs.
    + rewrite lookup_insert. case_decide as Hn.
      * split.
        -- intros [= <-]. exists r, s. done.
        -- intros (r' & st & Hr' & Hst & Hname & <-).
           assert (r' = r) as ->.
           { apply (Huniq r' r st s); [done|done|done|done|congruence]. }
           congruence.
      * rewrite IH. split.
        -- intros (r' & st & Hr' & Hrest). exists r', st.
           split; [|done]. apply elem_of_app. by left.
        -- intros (r' & st & Hr' & Hst & Hname & Htbl).
           apply elem_of_app in Hr' as [Hr' | ->%list_elem_of_singleton].
           ++ exists r', st. done.
           ++ congruence.
    + rewrite IH. split.
      * intros (r' & st & Hr' & Hrest). exists r', st.
        split; [|done]. apply elem_of_app. by left.
      * intros (r' & st & Hr' & Hst & Hrest).
        apply elem_of_app in Hr' as [Hr' | ->%list_elem_of_singleton].
        -- exists r', st. done.
        -- congruence.
Qed.

Lemma elem_of_saved_objects (a : Automaton) (r : ref) :
  r ∈ (map_to_list (states a)).*2 ↔ ∃ n, states a !! n = Some r.
Proof.
  rewrite list_elem_of_fmap. split.
  - intros ([n r'] & -> & Hin%elem_of_map_to_list). eauto.
  - intros (n & Hn). exists (n, r). split; [done|].
    by apply elem_of_map_to_list.
Qed.

Lemma elem_of_saved_states (a : Automaton) (n : string) :
  n ∈ (map_to_list (states a)).*1 ↔ is_Some (states a !! n).
Proof.
  rewrite list_elem_of_fmap. split.
  - intros ([n' r] & -> & Hin%elem_of_map_to_list). eauto.
  - intros [r Hn]. exists (n, r). split; [done|].
    by apply elem_of_map_to_list.
Qed.

(** The saved transitions are the tables of the states of the automaton,
    by name. *)
Lemma save_automaton_transitions (w : World) (n : string) :
  stored_under_name w →
  sv_transitions (save_automaton w) !! n
  = transitions <$> get_state w.1 w.2 n.
Proof.
  intros HK. destruct w as [h a]. cbn [fst snd] in *.
  unfold save_automaton. cbn [sv_transitions].
  apply option_eq. intros tbl.
  rewrite save_transitions_lookup.
  - rewrite fmap_Some. split.
    + intros (r & st & [m Hm]%elem_of_saved_objects & Hst & Hname & Htbl).
      destruct (HK _ _ Hm) as (st' & Hst' & Hname'). cbn [fst] in Hst'.
      assert (st' = st) as -> by congruence. subst m.
      exists st. split; [|done].
      apply (get_state_Some (h, a)). exists r. by rewrite <- Hname.
    + intros (st & (r & Hn & Hst)%(get_state_Some (h, a)) & ->).
      destruct (HK _ _ Hn) as (st' & Hst' & Hname'). cbn [fst snd] in *.
      assert (st' = st) as -> by congruence.
      exists r, st. split; [|done].
      apply elem_of_saved_objects. eauto.
  - intros r r' st st' [m Hm]%elem_of_saved_objects
      [m' Hm']%elem_of_saved_objects Hst Hst' Hname.
    destruct (HK _ _ Hm) as (st1 & Hst1 & Hname1).
    destruct (HK _ _ Hm') as (st1' & Hst1' & Hname1').
    cbn [fst snd] in *. congruence.
Qed.






(** ** Automata built through the checked operations are well formed *)

Lemma run_checked_run (check : World → op → bool) (w w' : World)
    (ops : list op) :
  run_checked check w ops = Some w' → w' = run w ops.
Proof.
  revert w. induction ops as [|o ops IH]; intros w; simpl.
  - by intros [= <-].
  - destruct (check w o); [apply IH|done].
Qed.

Lemma validated_start_checked (w : World) (o : op) :
  validated w o = true → start_checked w o = true.
Proof. unfold validated. by intros [? _]%andb_true_iff. Qed.

Lemma keyed_by_name_stored (w : World) :
  keyed_by_name w → stored_under_name w.
Proof. intros HK n r Hn. by destruct (HK _ _ Hn) as [_ ?]. Qed.

Lemma step_states_mono (w : World) (o : op) (t : string) :
  is_Some (states w.2 !! t) → is_Some (states (step w o).2 !! t).
Proof.
  destruct o as [n|state|state|state|f c t'];
    try (by rewrite step_states).
  destruct w as [h a]. simpl. destruct (h !! state); [|done].
  cbn [snd states]. intros Ht. apply lookup_insert_is_Some'. by right.
Qed.

Lemma add_transition_lookup (w : World) (f t r : ref) (c : string)
    (st' : StateItem) :
  (add_transition w f c t).1 !! r = Some st' →
  ∃ st, w.1 !! r = Some st
        ∧ (transitions st' = transitions st
           ∨ ∃ tobj, w.1 !! t = Some tobj
                     ∧ transitions st'
                       = add_target c (name tobj) (transitions st)).
Proof.
  destruct w as [h a]. unfold add_transition, add_transition_heap.
  cbn [fst snd].
  destruct (h !! f); [|eauto].
  destruct (h !! t) as [tobj|]; [|eauto].
  intros (st & ? & [->|[_ ->]])%heap_alter_lookup; simpl; eauto 8.
Qed.

Lemma names_known_step (w : World) (o : op) :
  validated w o = true → stored_under_name w →
  names_known w → names_known (step w o).
Proof.
  intros Hok HK (Hstart & Hacc & Htbl).
  apply andb_true_iff in Hok as [Hok1 Hok2].
  assert ((∀ s, o ≠ SetStart s) →
          ∀ s, start_state (step w o).2 = Some s →
               is_Some (states (step w o).2 !! s)) as Hstart'.
  { intros Ho s. rewrite step_start_state by done.
    intros Hs. by apply step_states_mono, Hstart. }
  assert ((∀ s, o ≠ SetAccept s) →
          ∀ n, n ∈ accept_states (step w o).2 →
               is_Some (states (step w o).2 !! n)) as Hacc'.
  { intros Ho n. rewrite step_accept_states by done.
    intros Hn. by apply step_states_mono, Hacc. }
  assert ((∀ f c t, o ≠ AddTransition f c t) →
          tables (λ l, ∀ t, t ∈ l → is_Some (states (step w o).2 !! t))
                 (step w o).1) as Htbl'.
  { intros Ho r st' c l Hst' Hl t Ht. apply step_states_mono.
    pose proof (step_lookup w o r st' Hst') as [[n ->]|(st & Hst & _)].
    - simpl in Hl. by rewrite lookup_empty in Hl.
    - rewrite (step_transitions w o r st st') in Hl by done.
      by apply (Htbl r st c l). }
  destruct o as [n|state|state|state|f c t];
    try (split; [apply Hstart'|split; [apply Hacc'|apply Htbl']]; done).
  - (* set_start *)
    apply in_mapping_true in Hok1 as (st & Hst & Hmap).
    split; [|split; [by apply Hacc'|by apply Htbl']].
    intros s. rewrite (step_states w (SetStart state)) by done.
    simpl step.
    rewrite (set_start_start_state w state st) by done. intros [= <-].
    eauto.
  - (* set_accept *)
    apply in_mapping_true in Hok2 as (st & Hst & Hmap).
    split; [by apply Hstart'|split; [|by apply Htbl']].
    intros n. rewrite (step_states w (SetAccept state)) by done.
    simpl step.
    rewrite (set_accept_accept_states w state st) by done.
    intros [->%elem_of_singleton|Hn]%elem_of_union; eauto.
  - (* add_transition *)
    apply in_mapping_true in Hok2 as (tobj & Htobj & Hmap).
    split; [by apply Hstart'|split; [by apply Hacc'|]].
    intros r st' c0 l Hst' Hl t' Ht'. simpl step in *.
    cbn [snd add_transition].
    apply add_transition_lookup in Hst'
      as (st & Hst & [Heq|(tobj' & Htobj' & Heq)]).
    + rewrite Heq in Hl. by apply (Htbl r st c0 l).
    + assert (tobj' = tobj) as -> by congruence.
      rewrite Heq, add_target_lookup in Hl.
      case_decide as Hc; [|by apply (Htbl r st c0 l)].
      injection Hl as <-. unfold append_new in Ht'.
      destruct (transitions st !! c) as [l0|] eqn:Hl0; simpl in Ht'.
      * case_bool_decide.
        -- by apply (Htbl r st c l0).
        -- apply elem_of_app in Ht' as [Ht' | ->%list_elem_of_singleton];
             [by apply (Htbl r st c l0)|eauto].
      * apply list_elem_of_singleton in Ht' as ->. eauto.
Qed.

Lemma names_known_run (w w' : World) (ops : list op) :
  run_checked validated w ops = Some w' →
  keyed_by_name w → start_flag_recorded w → names_known w →
  names_known w'.
Proof.
  revert w. induction ops as [|o ops IH]; intros w; simpl.
  - by intros [= <-].
  - destruct (validated w o) eqn:Hok; [|done].
    intros Hrun HK HF Hknown.
    destruct (start_invariant_step w o) as [HK' HF'];
      [by apply validated_start_checked|done|done|].
    apply (IH (step w o)); [done|done|done|].
    apply names_known_step; [done|by apply keyed_by_name_stored|done].
Qed.

Lemma run_checked_weaken (w w' : World) (ops : list op) :
  run_checked validated w ops = Some w' →
  run_checked start_checked w ops = Some w'.
Proof.
  revert w. induction ops as [|o ops IH]; intros w; simpl; [done|].
  destruct (validated w o) eqn:Hok; [|done].
  rewrite (validated_start_checked w o Hok). apply IH.
Qed.

(** An automaton built from nothing by operations that pass the checks
    of the front-end is well formed. *)
Lemma validated_well_formed (dfa : bool) (ops : list op) (w : World) :
  run_checked validated (init dfa) ops = Some w → well_formed w.
Proof.
  intros Hrun.
  destruct (start_invariant_init dfa) as [HK0 HF0].
  destruct (start_invariant_run _ _ _ (run_checked_weaken _ _ _ Hrun) HK0 HF0)
    as [HK HF].
  destruct (names_known_run _ _ _ Hrun HK0 HF0) as (Hstart & Hacc & Htbl).
  { split; [done|]. split; [set_solver|].
    intros r st c l Hr. simpl in Hr. by rewrite lookup_nil in Hr. }
  pose proof (run_checked_run _ _ _ _ Hrun) as ->.
  split; [by apply keyed_by_name_stored|].
  split; [intros s Hs _; by apply Hstart|].
  split; [done|].
  intros n st c l (r & Hn & Hst)%get_state_Some Hl.
  split; [|split].
  - by apply (run_targets_nonempty dfa ops r st c l).
  - apply (run_targets_nodup (init dfa) ops (tables_init _ dfa) r st c l);
      done.
  - by apply (Htbl r st c l).
Qed.



(** * Further properties of the engine *)

(** ** Empty input *)

(** X1: on the empty input [simulate] returns true exactly when
    [start_state] is a name other than the empty string that is in
    [accept_states], in DFA and in NFA mode, whether or not that name is
    a key of the state mapping; with no start state, or one named by the
    empty string, it returns false. *)
Theorem simulate_empty_input (w : World) :
  simulate w ""
  = Return (match start_state w.2 with
            | Some start =>
                truthy (Some start)
                && bool_decide (start ∈ accept_states w.2)
            | None => false
            end).
Proof.
  destruct w as [h a]. cbn [fst snd]. unfold simulate.
  destruct (start_state a) as [start|]; [|done].
  destruct (truthy (Some start)); [|done]. simpl.
  destruct (is_dfa a); [done|].
  unfold any_accept. rewrite elements_singleton. simpl.
  by rewrite orb_false_r.
Qed.

(** ** set_start twice, set_start and set_accept in either order *)

(** X2: a second [set_start] on the same state changes nothing. *)
Theorem set_start_idempotent (w : World) (state : nat) :
  set_start (set_start w state) state = set_start w state.
Proof.
  destruct (w.1 !! state) as [st|] eqn:Hst.
  - destruct (step_names w (SetStart state) state st Hst)
      as (st' & Hst' & Hname).
    simpl step in Hst'.
    pose proof (set_start_start_state w state st Hst) as Hs.
    destruct w as [h a]. cbn [fst snd] in *.
    simpl in Hst', Hs |- *. rewrite Hst in Hst', Hs |- *.
    cbn [fst snd] in *. unfold set_start. rewrite Hst'. rewrite Hname.
    f_equal. unfold clear_old_start at 1. cbn [start_state].
    rewrite bool_decide_eq_true_2 by done. rewrite andb_false_r.
    rewrite list_alter_alter_eq. by apply list_alter_ext.
  - destruct w as [h a]. cbn [fst] in Hst. simpl. rewrite Hst.
    simpl. by rewrite Hst.
Qed.

Lemma alter_commute (f g : StateItem → StateItem) (i j : nat)
    (h : list StateItem) :
  (∀ x, f (g x) = g (f x)) →
  alter f i (alter g j h) = alter g j (alter f i h).
Proof.
  intros Hfg. destruct (decide (i = j)) as [->|Hne].
  - rewrite !list_alter_alter_eq. apply list_alter_ext; [|done].
    intros x _. apply Hfg.
  - by apply list_alter_alter_ne.
Qed.

Lemma set_accept_allocated (w : World) (t : nat) (st : StateItem) :
  w.1 !! t = Some st →
  set_accept w t
  = (alter (StateItem_set_accept true) t w.1,
     mkAutomaton (states w.2) (start_state w.2)
       ({[name st]} ∪ accept_states w.2) (is_dfa w.2)).
Proof. destruct w as [h a]. cbn [fst snd]. intros Hst. simpl. by rewrite Hst. Qed.

Lemma set_start_allocated (w : World) (s : nat) (st : StateItem) :
  w.1 !! s = Some st →
  set_start w s
  = (alter (StateItem_set_start true) s (clear_old_start w.1 w.2 (name st)),
     mkAutomaton (states w.2) (Some (name st))
       (accept_states w.2) (is_dfa w.2)).
Proof. destruct w as [h a]. cbn [fst snd]. intros Hst. simpl. by rewrite Hst. Qed.

Lemma set_accept_unallocated (w : World) (t : nat) :
  w.1 !! t = None → set_accept w t = w.
Proof. destruct w as [h a]. cbn [fst]. intros Hst. simpl. by rewrite Hst. Qed.

Lemma set_start_unallocated (w : World) (s : nat) :
  w.1 !! s = None → set_start w s = w.
Proof. destruct w as [h a]. cbn [fst]. intros Hst. simpl. by rewrite Hst. Qed.

Lemma clear_old_start_set_accept (h : list StateItem) (a : Automaton)
    (acc : gset string) (n : string) (t : nat) :
  clear_old_start (alter (StateItem_set_accept true) t h)
    (mkAutomaton (states a) (start_state a) acc (is_dfa a)) n
  = alter (StateItem_set_accept true) t (clear_old_start h a n).
Proof.
  unfold clear_old_start. cbn [states start_state].
  destruct (_ && _); [|done].
  destruct (start_state a) as [s0|]; [|done].
  destruct (states a !! s0); [|done].
  by apply alter_commute.
Qed.

(** X3: marking a start state and marking an accept state commute. *)
Theorem set_start_set_accept_commute (w : World) (s t : nat) :
  set_start (set_accept w t) s = set_accept (set_start w s) t.
Proof.
  destruct (w.1 !! t) as [stt|] eqn:Ht, (w.1 !! s) as [sts|] eqn:Hs.
  - destruct (step_names w (SetStart s) t stt Ht) as (stt' & Ht' & Hnt).
    destruct (step_names w (SetAccept t) s sts Hs) as (sts' & Hs' & Hns).
    simpl step in Ht', Hs'.
    rewrite (set_start_allocated (set_accept w t) s sts') by done.
    rewrite (set_accept_allocated (set_start w s) t stt') by done.
    rewrite Hnt, Hns.
    rewrite (set_accept_allocated w t stt) by done.
    rewrite (set_start_allocated w s sts) by done.
    cbn [fst snd states start_state accept_states is_dfa]. f_equal.
    rewrite clear_old_start_set_accept. by apply alter_commute.
  - rewrite (set_start_unallocated w s) by done.
    rewrite (set_start_unallocated (set_accept w t) s); [done|].
    rewrite (set_accept_allocated w t stt) by done. cbn [fst].
    rewrite list_lookup_alter. case_decide; subst; by rewrite Hs.
  - rewrite (set_accept_unallocated w t) by done.
    rewrite (set_accept_unallocated (set_start w s) t); [done|].
    rewrite (set_start_allocated w s sts) by done. cbn [fst].
    rewrite list_lookup_alter.
    assert (clear_old_start w.1 w.2 (name sts) !! t = None) as Hclear.
    { unfold clear_old_start. destruct (_ && _); [|done].
      destruct (start_state w.2) as [s0|]; [|done].
      destruct (states w.2 !! s0); [|done].
      rewrite list_lookup_alter. case_decide; subst; by rewrite Ht. }
    case_decide; subst; by rewrite Hclear.
  - rewrite (set_start_unallocated w s) by done.
    rewrite (set_accept_unallocated w t) by done.
    by rewrite (set_start_unallocated w s).
Qed.

(** ** What simulate reads of the tables *)

Lemma chars_length (input_str c : string) :
  c ∈ chars input_str → String.length c = 1%nat.
Proof.
  induction input_str as [|x rest IH]; simpl.
  - by intros ?%elem_of_nil.
  - intros [->|Hc]%elem_of_cons; [done|auto].
Qed.

(** The DFA loop reads, for the characters of the input, the first
    destination only. *)
Lemma dfa_loop_head_ext (w w' : World) (q : string) (input : list string) :
  (∀ n c, c ∈ input →
     (λ st, head <$> transitions st !! c) <$> get_state w'.1 w'.2 n
     = (λ st, head <$> transitions st !! c) <$> get_state w.1 w.2 n) →
  accept_states w'.2 = accept_states w.2 →
  dfa_loop w'.1 w'.2 q input = dfa_loop w.1 w.2 q input.
Proof.
  intros Hview Hacc. revert q.
  induction input as [|c rest IH]; intros q; simpl.
  - by rewrite Hacc.
  - pose proof (Hview q c ltac:(by left)) as Hq.
    destruct (get_state w'.1 w'.2 q) as [st'|],
             (get_state w.1 w.2 q) as [st|]; simpl in Hq; try done.
    injection Hq as Hq.
    destruct (transitions st' !! c) as [[|t' l']|],
             (transitions st !! c) as [[|t l]|]; simpl in Hq; try done.
    injection Hq as ->. apply IH.
    intros n c' Hc'. apply Hview. by right.
Qed.

Lemma nfa_inner_ext (w w' : World) (c : string) (names : list string)
    (acc : gset string) :
  (∀ n, (λ st, transitions st !! c) <$> get_state w'.1 w'.2 n
        = (λ st, transitions st !! c) <$> get_state w.1 w.2 n) →
  nfa_inner w'.1 w'.2 c names acc = nfa_inner w.1 w.2 c names acc.
Proof.
  intros Hview. revert acc.
  induction names as [|n names IH]; intros acc; simpl; [done|].
  specialize (Hview n).
  destruct (get_state w'.1 w'.2 n) as [st'|],
           (get_state w.1 w.2 n) as [st|]; simpl in Hview; try done.
  injection Hview as ->. apply IH.
Qed.

Lemma nfa_loop_ext (w w' : World) (frontier : gset string)
    (input : list string) :
  (∀ n c, c ∈ input →
     (λ st, transitions st !! c) <$> get_state w'.1 w'.2 n
     = (λ st, transitions st !! c) <$> get_state w.1 w.2 n) →
  nfa_loop w'.1 w'.2 frontier input = nfa_loop w.1 w.2 frontier input.
Proof.
  revert frontier. induction input as [|c rest IH]; intros F Hview; simpl.
  - done.
  - unfold nfa_step. rewrite (nfa_inner_ext w w').
    + destruct (nfa_inner _ _ _ _ _); simpl; [|done].
      apply IH. intros n c' Hc'. apply Hview. by right.
    + intros n. apply Hview. by left.
Qed.

(** [simulate] reads the tables at the characters of the input only. *)
Lemma simulate_ext_chars (w w' : World) (input_str : string) :
  is_dfa w'.2 = is_dfa w.2 →
  start_state w'.2 = start_state w.2 →
  accept_states w'.2 = accept_states w.2 →
  (∀ n c, c ∈ chars input_str →
     (λ st, transitions st !! c) <$> get_state w'.1 w'.2 n
     = (λ st, transitions st !! c) <$> get_state w.1 w.2 n) →
  simulate w' input_str = simulate w input_str.
Proof.
  intros Hd Hs Ha Hview.
  assert (∀ q, dfa_loop w'.1 w'.2 q (chars input_str)
               = dfa_loop w.1 w.2 q (chars input_str)) as Hdfa.
  { intros q. apply dfa_loop_head_ext; [|done].
    intros n c Hc. specialize (Hview n c Hc).
    destruct (get_state w'.1 w'.2 n), (get_state w.1 w.2 n);
      simpl in *; try done.
    injection Hview as ->. done. }
  pose proof (λ F, nfa_loop_ext w w' F (chars input_str) Hview) as Hnfa.
  destruct w as [h a], w' as [h' a']. cbn [fst snd] in *.
  unfold simulate. rewrite Hs, Hd.
  destruct (negb _); [done|].
  destruct (start_state a); [|done].
  destruct (is_dfa a); [apply Hdfa|].
  rewrite Hnfa. destruct (nfa_loop _ _ _ _); simpl; [|done].
  unfold any_accept. by rewrite Ha.
Qed.

(** The object [r] after [add_transition]. *)
Lemma add_transition_heap_at (h : list StateItem) (f t r : nat) (c : string) :
  add_transition_heap h f c t !! r
  = (λ st, match h !! t with
           | Some tobj =>
               if decide (f = r)
               then with_transitions
                      (add_target c (name tobj) (transitions st)) st
               else st
           | None => st
           end) <$> h !! r.
Proof.
  unfold add_transition_heap.
  destruct (h !! f) as [fobj|] eqn:Hf.
  - destruct (h !! t) as [tobj|] eqn:Ht.
    + destruct (decide (f = r)) as [->|Hne].
      * rewrite list_lookup_alter_eq. by destruct (h !! r).
      * rewrite list_lookup_alter_ne by done. by destruct (h !! r).
    + by destruct (h !! r).
  - destruct (h !! r) as [st|] eqn:Hr; simpl; [|done].
    destruct (h !! t); [|done].
    destruct (decide (f = r)) as [->|Hne]; [congruence|done].
Qed.

Lemma get_state_add_transition (w : World) (f t : nat) (c n : string) :
  get_state (add_transition w f c t).1 (add_transition w f c t).2 n
  = st ← get_state w.1 w.2 n;
    Some (match w.1 !! t with
          | Some tobj =>
              if decide (states w.2 !! n = Some f)
              then with_transitions
                     (add_target c (name tobj) (transitions st)) st
              else st
          | None => st
          end).
Proof.
  unfold get_state, add_transition. cbn [fst snd].
  destruct (states w.2 !! n) as [r|]; simpl; [|done].
  rewrite add_transition_heap_at.
  destruct (w.1 !! r) as [st|]; simpl; [|done].
  destruct (w.1 !! t); [|done].
  repeat case_decide; congruence.
Qed.

(** ** Transitions that simulate never follows *)

(** X4: in DFA mode, a further destination for a state and symbol that
    already have one changes no [simulate] result: the first destination
    added is the one that is followed. *)
Theorem dfa_first_target_wins (w : World) (from_state to_state : nat)
    (symbol : string) (f : StateItem) (t0 : string) (l : list string)
    (input_str : string) :
  is_dfa w.2 = true →
  w.1 !! from_state = Some f →
  transitions f !! symbol = Some (t0 :: l) →
  simulate (add_transition w from_state symbol to_state) input_str
  = simulate w input_str.
Proof.
  intros Hdfa Hf Hl.
  assert (∀ q, dfa_loop (add_transition w from_state symbol to_state).1
                 (add_transition w from_state symbol to_state).2 q
                 (chars input_str)
               = dfa_loop w.1 w.2 q (chars input_str)) as Hloop.
  { intros q. apply dfa_loop_head_ext; [|done].
    intros n c _. rewrite get_state_add_transition.
    destruct (get_state w.1 w.2 n) as [st|] eqn:Hst; simpl; [|done].
    f_equal. destruct (w.1 !! to_state) as [tobj|]; [|done].
    case_decide as Hn; [|done]. cbn [transitions with_transitions].
    apply get_state_Some in Hst as (r & Hr & Hst).
    assert (st = f) as -> by congruence.
    rewrite add_target_lookup. case_decide as Hc; [|done]. subst c.
    rewrite Hl. simpl. unfold append_new. by case_bool_decide. }
  destruct w as [h a]. cbn [fst snd] in *.
  unfold simulate, add_transition in *. cbn [fst snd] in *.
  rewrite Hdfa. destruct (negb _); [done|].
  destruct (start_state a); [apply Hloop|done].
Qed.

Lemma dfa_first_target_wins_witness :
  simulate (add_transition dfa_ab 0 "a" 0) "ab" = simulate dfa_ab "ab".
Proof.
  eapply (dfa_first_target_wins dfa_ab 0 0 "a"); reflexivity.
Defined.

(** X5: the engine takes any string as a symbol, but [simulate] looks up
    single characters: a transition whose symbol is not exactly one
    character long changes no [simulate] result, in either mode. *)
Theorem long_symbol_never_followed (w : World) (from_state to_state : nat)
    (symbol input_str : string) :
  String.length symbol ≠ 1%nat →
  simulate (add_transition w from_state symbol to_state) input_str
  = simulate w input_str.
Proof.
  intros Hlen. apply simulate_ext_chars; try done.
  intros n c Hc. rewrite get_state_add_transition.
  destruct (get_state w.1 w.2 n) as [st|]; simpl; [|done].
  f_equal. destruct (w.1 !! to_state) as [tobj|]; [|done].
  case_decide; [|done]. cbn [transitions with_transitions].
  rewrite add_target_lookup. rewrite decide_False; [done|].
  intros ->. by apply chars_length in Hc.
Qed.

Lemma long_symbol_never_followed_witness :
  simulate (add_transition dfa_ab 0 "ab" 0) "ab" = simulate dfa_ab "ab"
  ∧ simulate (add_transition nfa_fork 0 "" 1) "a" = simulate nfa_fork "a".
Proof.
  split; apply long_symbol_never_followed; simpl; lia.
Defined.

(** ** Inputs as concatenations, symbols without transition *)

Lemma dfa_loop_app (w : World) (q : string) (input1 input2 : list string) :
  automaton_targets_nonempty w →
  dfa_loop w.1 w.2 q (input1 ++ input2)
  = match spec_dfa_walk w q input1 with
    | Some q' => dfa_loop w.1 w.2 q' input2
    | None => Return false
    end.
Proof.
  intros Hne. revert q.
  induction input1 as [|c rest IH]; intros q; simpl; [done|].
  unfold spec_dfa_move.
  destruct (get_state w.1 w.2 q) as [st|] eqn:Hst; simpl; [|done].
  destruct (transitions st !! c) as [[|t l]|] eqn:Hl; simpl; [|apply IH|done].
  by destruct (Hne _ _ _ _ Hst Hl).
Qed.

(** X6: in DFA mode, [simulate] on [seen] followed by [rest] goes on from
    the state reached on [seen]; once a character of [seen] has no
    transition the input is rejected whatever follows. *)
Theorem simulate_dfa_concat (w : World) (start seen rest : string) :
  is_dfa w.2 = true →
  start_state w.2 = Some start →
  truthy (Some start) = true →
  automaton_targets_nonempty w →
  simulate w (seen +:+ rest)
  = match spec_dfa_walk w start (chars seen) with
    | Some q => Return (spec_dfa_accepts w q (chars rest))
    | None => Return false
    end.
Proof.
  intros Hdfa Hstart Hset Hne.
  pose proof (dfa_loop_app w start (chars seen) (chars rest) Hne) as Happ.
  pose proof (λ q, dfa_loop_spec w q (chars rest) Hne) as Hrest.
  destruct w as [h a]. cbn [fst snd] in *.
  unfold simulate. rewrite Hstart, Hset, Hdfa. simpl negb. cbv iota.
  rewrite chars_app, Happ.
  destruct (spec_dfa_walk (h, a) start (chars seen)); [apply Hrest|done].
Qed.

Lemma simulate_dfa_concat_witness :
  simulate dfa_ab ("ab" +:+ "bb") = Return true
  ∧ simulate dfa_ab ("b" +:+ "ab") = Return false.
Proof.
  split.
  - apply (simulate_dfa_concat dfa_ab "q0" "ab" "bb"); try reflexivity.
    apply targets_nonempty_automaton, run_targets_nonempty.
  - apply (simulate_dfa_concat dfa_ab "q0" "b" "ab"); try reflexivity.
    apply targets_nonempty_automaton, run_targets_nonempty.
Defined.

Lemma dfa_loop_unknown_symbol (w : World) (q c : string)
    (input : list string) :
  automaton_targets_nonempty w →
  c ∈ input →
  (∀ n st, get_state w.1 w.2 n = Some st → transitions st !! c = None) →
  dfa_loop w.1 w.2 q input = Return false.
Proof.
  intros Hne Hc Hnone. revert q.
  induction input as [|x rest IH]; intros q; simpl.
  - by apply elem_of_nil in Hc.
  - destruct (get_state w.1 w.2 q) as [st|] eqn:Hst; [|done].
    destruct (transitions st !! x) as [[|t l]|] eqn:Hl; [| |done].
    + by destruct (Hne _ _ _ _ Hst Hl).
    + apply elem_of_cons in Hc as [->|Hc].
      * rewrite (Hnone _ _ Hst) in Hl. done.
      * by apply IH.
Qed.

Lemma spec_frontier_unknown_symbol (w : World) (frontier : gset string)
    (c : string) (input : list string) :
  c ∈ input →
  (∀ n st, get_state w.1 w.2 n = Some st → transitions st !! c = None) →
  foldl (spec_nfa_step w) frontier input = ∅.
Proof.
  intros Hc Hnone. revert frontier.
  assert (∀ input', foldl (spec_nfa_step w) ∅ input' = ∅) as Hempty.
  { induction input' as [|x rest IH]; simpl; [done|].
    unfold spec_nfa_step at 2. by rewrite elements_empty. }
  induction input as [|x rest IH]; intros F; simpl.
  - by apply elem_of_nil in Hc.
  - apply elem_of_cons in Hc as [->|Hc]; [|by apply IH].
    assert (spec_nfa_step w F x = ∅) as ->; [|apply Hempty].
    apply set_eq. intros t. split; [|by intros ?%not_elem_of_empty].
    unfold spec_nfa_step.
    intros (X & HX & Ht)%elem_of_union_list.
    apply list_elem_of_fmap in HX as (q & -> & _).
    unfold spec_targets in Ht.
    destruct (get_state w.1 w.2 q) as [st|] eqn:Hst; [|done].
    by rewrite (Hnone _ _ Hst) in Ht.
Qed.

(** X7: an input that contains a character for which no state of the
    automaton has a transition is rejected: in DFA mode when target lists
    are non-empty, in NFA mode when the start state and the destinations
    are states of the automaton. *)
Theorem unknown_symbol_rejected (w : World) (start c input_str : string) :
  start_state w.2 = Some start →
  truthy (Some start) = true →
  (if is_dfa w.2 then automaton_targets_nonempty w
   else is_Some (get_state w.1 w.2 start) ∧ targets_known w) →
  c ∈ chars input_str →
  (∀ n st, get_state w.1 w.2 n = Some st → transitions st !! c = None) →
  simulate w input_str = Return false.
Proof.
  intros Hstart Hset Hmode Hc Hnone.
  destruct (is_dfa w.2) eqn:Hdfa.
  - pose proof (dfa_loop_unknown_symbol w start c (chars input_str)
                  Hmode Hc Hnone) as Hloop.
    destruct w as [h a]. cbn [fst snd] in *.
    unfold simulate. by rewrite Hstart, Hset, Hdfa.
  - destruct Hmode as [Hs Hknown].
    assert (frontier_known w {[start]}) as HF.
    { intros q ->%elem_of_singleton. done. }
    pose proof (nfa_loop_known w {[start]} (chars input_str) Hknown HF)
      as Hloop.
    rewrite (spec_frontier_unknown_symbol w _ c) in Hloop by done.
    destruct w as [h a]. cbn [fst snd] in *.
    unfold simulate. rewrite Hstart, Hset, Hdfa. simpl negb. cbv iota.
    rewrite Hloop. simpl. unfold any_accept. by rewrite elements_empty.
Qed.

Lemma unknown_symbol_rejected_witness :
  simulate dfa_ab "abzb" = Return false.
Proof.
  apply (unknown_symbol_rejected dfa_ab "q0" "z" "abzb").
  - reflexivity.
  - reflexivity.
  - apply targets_nonempty_automaton, run_targets_nonempty.
  - vm_compute. do 2 right. left.
  - intros n st (r & _ & Hst)%get_state_Some.
    destruct r as [|[|r]]; vm_compute in Hst; [| |done];
      injection Hst as <-; reflexivity.
Defined.

(** ** The two modes on the same automaton *)

Lemma dfa_true_in_frontier (w : World) (q : string) (frontier : gset string)
    (input : list string) :
  dfa_loop w.1 w.2 q input = Return true → q ∈ frontier →
  ∃ q', q' ∈ foldl (spec_nfa_step w) frontier input
        ∧ q' ∈ accept_states w.2.
Proof.
  revert q frontier. induction input as [|c rest IH]; intros q F; simpl.
  - intros [= Hacc%bool_decide_eq_true] Hq. eauto.
  - destruct (get_state w.1 w.2 q) as [st|] eqn:Hst; [|done].
    destruct (transitions st !! c) as [[|t l]|] eqn:Hl; [done| |done].
    intros Hloop Hq. apply (IH t); [done|].
    unfold spec_nfa_step. apply elem_of_union_list.
    exists (spec_targets w q c). split.
    + apply list_elem_of_fmap. exists q. split; [done|].
      by apply elem_of_elements.
    + unfold spec_targets. rewrite Hst, Hl.
      apply elem_of_list_to_set. by left.
Qed.

Lemma simulate_nfa_frontier (w : World) (start input_str : string) :
  is_dfa w.2 = false →
  start_state w.2 = Some start →
  truthy (Some start) = true →
  is_Some (get_state w.1 w.2 start) →
  targets_known w →
  simulate w input_str
  = Return (bool_decide
              (∃ q, q ∈ foldl (spec_nfa_step w) {[start]} (chars input_str)
                    ∧ q ∈ accept_states w.2)).
Proof.
  intros Hmode Hstart Hset Hs Hknown.
  assert (frontier_known w {[start]}) as HF.
  { intros q ->%elem_of_singleton. done. }
  pose proof (nfa_loop_known w {[start]} (chars input_str) Hknown HF)
    as Hloop.
  destruct w as [h a]. cbn [fst snd] in *.
  unfold simulate. rewrite Hstart, Hset, Hmode. simpl negb. cbv iota.
  rewrite Hloop. simpl. f_equal. apply any_accept_spec.
Qed.

(** X8: on an automaton whose start state and destinations are states of
    the mapping, every input accepted in DFA mode is accepted in NFA
    mode: the state the DFA walk is in belongs to the NFA frontier. *)
Theorem dfa_accept_nfa_accept (h : list StateItem) (a : Automaton)
    (start input_str : string) :
  start_state a = Some start →
  truthy (Some start) = true →
  is_Some (get_state h a start) →
  targets_known (h, a) →
  simulate (h, with_mode true a) input_str = Return true →
  simulate (h, with_mode false a) input_str = Return true.
Proof.
  intros Hstart Hset Hs Hknown Hdfa.
  rewrite (simulate_nfa_frontier (h, with_mode false a) start);
    try done.
  f_equal. apply bool_decide_eq_true_2.
  unfold simulate in Hdfa. cbn [with_mode start_state is_dfa] in Hdfa.
  rewrite Hstart, Hset in Hdfa. simpl negb in Hdfa. cbv iota in Hdfa.
  apply (dfa_true_in_frontier (h, with_mode true a) start {[start]})
    in Hdfa; [|by apply elem_of_singleton].
  exact Hdfa.
Qed.

Lemma well_formed_known (w : World) :
  well_formed w → targets_known w ∧ automaton_targets_nonempty w.
Proof.
  intros (HK & _ & _ & Htbl). split.
  - intros n st c l t Hst Hl Ht.
    destruct (Htbl n st c l Hst Hl) as (_ & _ & Hknown).
    destruct (Hknown t Ht) as [r Hr].
    destruct (HK _ _ Hr) as (st' & Hst' & _).
    exists st'. apply get_state_Some. eauto.
  - intros n st c l Hst Hl. by destruct (Htbl n st c l Hst Hl).
Qed.

Lemma dfa_ab_well_formed : well_formed dfa_ab.
Proof.
  apply (validated_well_formed true build_ab). vm_compute. reflexivity.
Qed.

Lemma dfa_accept_nfa_accept_witness :
  simulate (dfa_ab.1, with_mode false dfa_ab.2) "abb" = Return true.
Proof.
  apply (dfa_accept_nfa_accept dfa_ab.1 dfa_ab.2 "q0" "abb").
  - reflexivity.
  - reflexivity.
  - vm_compute. eauto.
  - apply (well_formed_known dfa_ab), dfa_ab_well_formed.
  - vm_compute. reflexivity.
Defined.

Lemma spec_nfa_step_singleton (w : World) (q c : string) :
  spec_nfa_step w {[q]} c = spec_targets w q c.
Proof.
  unfold spec_nfa_step. rewrite elements_singleton. simpl.
  by rewrite (right_id_L ∅ (∪)).
Qed.

Lemma spec_frontier_empty (w : World) (input : list string) :
  foldl (spec_nfa_step w) ∅ input = ∅.
Proof.
  induction input as [|x rest IH]; simpl; [done|].
  unfold spec_nfa_step at 2. by rewrite elements_empty.
Qed.

Lemma spec_frontier_deterministic (w : World) (q : string)
    (input : list string) :
  deterministic w →
  foldl (spec_nfa_step w) {[q]} input
  = match spec_dfa_walk w q input with
    | Some q' => {[q']}
    | None => ∅
    end.
Proof.
  intros Hdet. revert q.
  induction input as [|c rest IH]; intros q; simpl; [done|].
  rewrite spec_nfa_step_singleton. unfold spec_targets, spec_dfa_move.
  destruct (get_state w.1 w.2 q) as [st|] eqn:Hst; simpl;
    [|apply spec_frontier_empty].
  destruct (transitions st !! c) as [l|] eqn:Hl; simpl;
    [|apply spec_frontier_empty].
  destruct (Hdet _ _ _ _ Hst Hl) as [t ->]. simpl.
  rewrite (right_id_L ∅ (∪)). apply IH.
Qed.

Lemma spec_dfa_walk_with_mode (h : list StateItem) (a : Automaton)
    (dfa : bool) (q : string) (input : list string) :
  spec_dfa_walk (h, with_mode dfa a) q input = spec_dfa_walk (h, a) q input.
Proof.
  revert q. induction input as [|c rest IH]; intros q; simpl; [done|].
  change (spec_dfa_move (h, with_mode dfa a) q c)
    with (spec_dfa_move (h, a) q c).
  destruct (spec_dfa_move (h, a) q c); simpl; [apply IH|done].
Qed.

(** X9: on an automaton with exactly one destination for each state and
    symbol that has any, whose start state and destinations are states
    of the mapping, [simulate] gives the same answer in NFA mode as in
    DFA mode, on every input. *)
Theorem modes_agree_when_deterministic (h : list StateItem) (a : Automaton)
    (start input_str : string) :
  start_state a = Some start →
  truthy (Some start) = true →
  is_Some (get_state h a start) →
  targets_known (h, a) →
  deterministic (h, a) →
  simulate (h, with_mode false a) input_str
  = simulate (h, with_mode true a) input_str.
Proof.
  intros Hstart Hset Hs Hknown Hdet.
  rewrite (simulate_nfa_frontier (h, with_mode false a) start); try done.
  assert (automaton_targets_nonempty (h, with_mode true a)) as Hne.
  { intros n st c l Hst Hl. destruct (Hdet n st c l Hst Hl) as [t ->]. done. }
  pose proof (dfa_loop_spec (h, with_mode true a) start (chars input_str) Hne)
    as Hloop.
  unfold simulate. cbn [with_mode start_state is_dfa fst snd] in *.
  rewrite Hstart, Hset. simpl negb. cbv iota. rewrite Hloop. f_equal.
  rewrite (spec_frontier_deterministic (h, with_mode false a)) by done.
  unfold spec_dfa_accepts. rewrite !spec_dfa_walk_with_mode.
  destruct (spec_dfa_walk (h, a) start (chars input_str))
    as [q|]; cbn [snd with_mode accept_states].
  - apply bool_decide_ext. split.
    + by intros (q' & ->%elem_of_singleton & Hacc).
    + intros Hacc. exists q. split; [by apply elem_of_singleton|done].
  - apply bool_decide_eq_false_2. by intros (q' & ?%not_elem_of_empty & _).
Qed.

Lemma dfa_ab_objects :
  dfa_ab.1 = [mkState "q0" false true {["a" := ["q1"]]};
              mkState "q1" true false {["b" := ["q1"]]}].
Proof. vm_compute. reflexivity. Qed.

Lemma dfa_ab_deterministic : deterministic (dfa_ab.1, dfa_ab.2).
Proof.
  intros n st c l (r & _ & Hst)%get_state_Some Hl.
  cbn [fst] in Hst. rewrite dfa_ab_objects in Hst.
  destruct r as [|[|r]]; simpl in Hst; [| |done];
    injection Hst as <-; simpl in Hl;
    apply lookup_singleton_Some in Hl as [_ <-]; eauto.
Qed.

Lemma modes_agree_when_deterministic_witness :
  simulate (dfa_ab.1, with_mode false dfa_ab.2) "ab"
  = simulate (dfa_ab.1, with_mode true dfa_ab.2) "ab".
Proof.
  apply (modes_agree_when_deterministic dfa_ab.1 dfa_ab.2 "q0" "ab").
  - reflexivity.
  - reflexivity.
  - vm_compute. eauto.
  - apply (well_formed_known dfa_ab), dfa_ab_well_formed.
  - apply dfa_ab_deterministic.
Defined.

(** * The window *)

Lemma run_checked_app (check : World → op → bool) (w : World)
    (ops1 ops2 : list op) :
  run_checked check w (ops1 ++ ops2)
  = w' ← run_checked check w ops1; run_checked check w' ops2.
Proof.
  revert w. induction ops1 as [|o ops1 IH]; intros w; simpl; [done|].
  destruct (check w o); [apply IH|done].
Qed.

Lemma step_length (w : World) (o : op) :
  (∀ n, o ≠ NewState n) → length (step w o).1 = length w.1.
Proof.
  destruct w as [h a]. intros Ho.
  destruct o as [n|state|state|state|f c t]; simpl.
  - by destruct (Ho n).
  - by destruct (h !! state).
  - destruct (h !! state); simpl; [|done].
    rewrite length_alter. unfold clear_old_start.
    destruct (_ && _); [|done].
    destruct (start_state a) as [s0|]; [|done].
    destruct (states a !! s0); [|done]. apply length_alter.
  - destruct (h !! state); simpl; [|done]. apply length_alter.
  - unfold add_transition_heap.
    destruct (h !! f); [|done]. destruct (h !! t); [|done].
    apply length_alter.
Qed.

Lemma in_mapping_step (w : World) (o : op) (r : nat) :
  validated w o = true →
  in_mapping w r = true → in_mapping (step w o) r = true.
Proof.
  intros Hok (st & Hst & Hmap)%in_mapping_true.
  apply in_mapping_true.
  destruct (step_names w o r st Hst) as (st' & Hst' & Hname).
  exists st'. split; [done|]. rewrite Hname.
  destruct o as [n|state|state|state|f c t];
    try (by rewrite step_states).
  apply validated_start_checked in Hok.
  destruct w as [h a]. simpl in Hok |- *. cbn [fst snd] in *.
  destruct (h !! state) as [sts|]; [|done].
  apply andb_true_iff in Hok as [_ Hfree%bool_decide_eq_true].
  cbn [snd states]. rewrite lookup_insert_ne; [done|]. congruence.
Qed.

Lemma symbols_single_step (w : World) (o : op) :
  (∀ f c t, o = AddTransition f c t → String.length c = 1%nat) →
  symbols_single w.1 → symbols_single (step w o).1.
Proof.
  intros Ho Hw r st' c l Hst' Hl.
  assert ((∀ f c0 t, o ≠ AddTransition f c0 t) → String.length c = 1%nat)
    as Hother.
  { intros Hno.
    pose proof (step_lookup w o r st' Hst') as [[n ->]|(st & Hst & _)].
    - simpl in Hl. by rewrite lookup_empty in Hl.
    - rewrite (step_transitions w o r st st') in Hl by done.
      by apply (Hw r st c l). }
  destruct o as [n|state|state|state|f c0 t]; try (by apply Hother).
  simpl step in Hst'.
  apply add_transition_lookup in Hst'
    as (st & Hst & [Heq|(tobj & _ & Heq)]).
  - rewrite Heq in Hl. by apply (Hw r st c l).
  - rewrite Heq, add_target_lookup in Hl. case_decide as Hc.
    + subst c. by apply (Ho f c0 t).
    + by apply (Hw r st c l).
Qed.

(** A checked engine call on the automaton of the window keeps the
    invariant of the window. *)
Lemma window_invariant_step (win : Window) (o : op) :
  window_invariant win →
  validated (window_world win) o = true →
  (∀ n, o ≠ NewState n) →
  (∀ f c t, o = AddTransition f c t → String.length c = 1%nat) →
  window_invariant
    (mkWindow (step (window_world win) o).1 (step (window_world win) o).2
              (selected_state win)).
Proof.
  intros ([ops Hops] & Hall & Hsel & Hsym) Hok Hnew Hlen.
  unfold window_invariant, window_world in *.
  cbn [objects automaton selected_state].
  rewrite step_length by done.
  split; [|split; [|split]].
  - exists (ops ++ [o]). rewrite run_checked_app, Hops. simpl.
    rewrite Hok. by destruct (step _ o).
  - intros r Hr. destruct (step _ o) as [h' a'] eqn:Hstep.
    rewrite <- Hstep. apply in_mapping_step; [done|]. by apply Hall.
  - done.
  - by apply symbols_single_step.
Qed.

Lemma window_invariant_new : window_invariant AutomataWindow.new.
Proof.
  split; [by exists []|]. split; [|split].
  - intros r Hr. simpl in Hr. lia.
  - done.
  - intros r st c l Hr. simpl in Hr. by rewrite lookup_nil in Hr.
Qed.

Lemma window_invariant_world (win : Window) :
  window_invariant win →
  well_formed (window_world win)
  ∧ at_most_one_start (window_world win)
  ∧ is_dfa (automaton win) = true.
Proof.
  intros ([ops Hops] & _).
  split; [by apply (validated_well_formed true ops)|].
  destruct (start_invariant_init true) as [HK0 HF0].
  destruct (start_invariant_run _ _ _ (run_checked_weaken _ _ _ Hops) HK0 HF0)
    as [HK HF].
  split; [by apply start_invariant_at_most_one|].
  apply run_checked_run in Hops.
  change (automaton win) with (window_world win).2.
  rewrite Hops. apply run_is_dfa.
Qed.

Lemma window_add_state_invariant (win : Window) (nm : string) (ok : bool) :
  window_invariant win →
  window_invariant (AutomataWindow.add_state win nm ok).1.
Proof.
  intros Hinv. unfold AutomataWindow.add_state.
  destruct (ok && truthy (Some nm)) eqn:Hok; [|done].
  apply andb_true_iff in Hok as [_ Hname].
  case_bool_decide as Hdup; [done|].
  assert (states (automaton win) !! nm = None) as Hfree.
  { destruct (states (automaton win) !! nm) eqn:Hn; [|done].
    destruct Hdup. eauto. }
  destruct Hinv as ([ops Hops] & Hall & Hsel & Hsym).
  set (w1 := step (window_world win) (NewState nm)).
  set (w2 := step w1 (AddState (length (objects win)))).
  assert (w2 = (objects win ++ [StateItem_init nm],
                mkAutomaton (<[nm := length (objects win)]>
                               (states (automaton win)))
                  (start_state (automaton win))
                  (accept_states (automaton win))
                  (is_dfa (automaton win)))) as Hw2.
  { unfold w2, w1, window_world. simpl.
    by rewrite list_lookup_middle. }
  assert (validated w1 (AddState (length (objects win))) = true) as Hok2.
  { unfold validated, start_checked, w1, window_world.
    cbn [step alloc fst snd]. rewrite list_lookup_middle by done.
    cbn [name StateItem_init states].
    by rewrite Hname, bool_decide_eq_true_2. }
  assert (window_invariant (mkWindow w2.1 w2.2 (selected_state win)))
    as Hgoal.
  { unfold window_invariant, window_world.
    cbn [objects automaton selected_state].
    replace (w2.1, w2.2) with w2 by (by destruct w2).
    assert (length w2.1 = S (length (objects win))) as Hlen.
    { rewrite Hw2. cbn [fst]. rewrite length_app. simpl. lia. }
    split; [|split; [|split]].
    - exists (ops ++ [NewState nm; AddState (length (objects win))]).
      rewrite run_checked_app, Hops.
      cbn [mbind option_bind run_checked].
      change (validated (window_world win) (NewState nm)) with true.
      cbv iota. fold w1. by rewrite Hok2.
    - intros r Hr.
      destruct (decide (r = length (objects win))) as [->|Hne].
      + rewrite Hw2. apply in_mapping_true.
        exists (StateItem_init nm).
        cbn [fst snd states name StateItem_init].
        rewrite list_lookup_middle by done. split; [done|].
        apply lookup_insert_eq.
      + apply in_mapping_step; [done|].
        apply (in_mapping_step (window_world win) (NewState nm)); [done|].
        apply Hall. lia.
    - intros r Hr. specialize (Hsel r Hr). lia.
    - apply symbols_single_step; [done|].
      by apply symbols_single_step. }
  rewrite Hw2 in Hgoal. cbn [fst snd] in Hgoal.
  simpl. by rewrite list_lookup_middle.
Qed.

Lemma window_add_transition_invariant (win : Window) (to_name : string)
    (ok : bool) (symbol : string) (ok2 : bool) :
  window_invariant win →
  window_invariant
    (AutomataWindow.add_transition win to_name ok symbol ok2).1.
Proof.
  intros Hinv. unfold AutomataWindow.add_transition.
  destruct (selected_state win) as [from_state|] eqn:Hsel; [|done].
  destruct (negb ok || negb (truthy (Some to_name))); [done|].
  destruct (negb ok2 || negb (truthy (Some symbol))); [done|].
  destruct (String.length symbol =? 1)%nat eqn:Hlen; [|done].
  apply Nat.eqb_eq in Hlen. simpl negb. cbv iota.
  destruct (states (automaton win) !! to_name) as [to_state|] eqn:Hto;
    [|done].
  cbn [fst].
  pose proof (window_invariant_step win
                (AddTransition from_state symbol to_state) Hinv) as Hstep.
  rewrite Hsel in Hstep. apply Hstep; [|done|by intros f c t [= _ <- _]].
  destruct (window_invariant_world win Hinv) as ((HK & _) & _).
  destruct (HK _ _ Hto) as (st & Hst & Hname).
  unfold validated. simpl. apply in_mapping_true.
  exists st. split; [done|]. by rewrite Hname.
Qed.

Lemma window_simulate_returns (win : Window) (input_str : string) :
  window_invariant win →
  ∃ b, simulate (window_world win) input_str = Return b.
Proof.
  intros Hinv.
  destruct (window_invariant_world win Hinv) as (Hwf & _ & Hdfa).
  apply simulate_dfa_returns; [done|].
  by apply well_formed_known.
Qed.

Lemma handle_invariant (win : Window) (e : event) :
  window_invariant win →
  ∃ win' m, handle win e = Return (win', m) ∧ window_invariant win'.
Proof.
  intros Hinv.
  destruct e as [nm ok|state| | |to_name ok symbol ok2|input_str ok];
    cbn [handle].
  - destruct (AutomataWindow.add_state win nm ok) as [win' m] eqn:Hadd.
    exists win', m. split; [done|].
    pose proof (window_add_state_invariant win nm ok Hinv) as Hinv'.
    by rewrite Hadd in Hinv'.
  - destruct (objects win !! state) as [st|] eqn:Hst; [|eauto].
    eexists _, _. split; [done|].
    destruct Hinv as (Hops & Hall & Hsel & Hsym).
    split; [done|]. split; [done|]. split; [|done].
    intros r [= <-]. by apply lookup_lt_Some in Hst.
  - eexists _, _. split; [done|]. unfold AutomataWindow.set_start_state.
    destruct (selected_state win) as [state|] eqn:Hsel; [|done].
    pose proof (window_invariant_step win (SetStart state) Hinv) as Hstep.
    rewrite Hsel in Hstep. apply Hstep; [|done|done].
    destruct Hinv as (_ & Hall & Hlt & _).
    unfold validated. simpl. rewrite andb_true_r. apply Hall. by apply Hlt.
  - eexists _, _. split; [done|]. unfold AutomataWindow.set_accept_state.
    destruct (selected_state win) as [state|] eqn:Hsel; [|done].
    pose proof (window_invariant_step win (SetAccept state) Hinv) as Hstep.
    rewrite Hsel in Hstep. apply Hstep; [|done|done].
    destruct Hinv as (_ & Hall & Hlt & _).
    unfold validated. simpl. apply Hall. by apply Hlt.
  - destruct (AutomataWindow.add_transition win to_name ok symbol ok2)
      as [win' m] eqn:Hadd.
    exists win', m. split; [done|].
    pose proof (window_add_transition_invariant win to_name ok symbol ok2
                  Hinv) as Hinv'.
    by rewrite Hadd in Hinv'.
  - unfold AutomataWindow.simulate_input. destruct ok; [|simpl; eauto].
    destruct (window_simulate_returns win input_str Hinv) as [b ->].
    simpl. eauto.
Qed.

Lemma session_invariant (win : Window) (events : list event) :
  window_invariant win →
  ∃ win' ms, session win events = Return (win', ms)
             ∧ window_invariant win'.
Proof.
  revert win. induction events as [|e rest IH]; intros win Hinv; simpl.
  - eauto.
  - destruct (handle_invariant win e Hinv) as (win1 & m & -> & Hinv1).
    simpl. destruct (IH win1 Hinv1) as (win2 & ms & -> & Hinv2).
    simpl. eauto.
Qed.

(** X10: whatever the user does in the window short of loading a file
    (add states, click states, mark start and accept states, add
    transitions, simulate, with any answers to the dialogs), no handler
    fails, and the automaton stays
    well formed: states stored under their names, start state, accept
    states and destinations among them, target lists non-empty and
    without duplicates, at most one state flagged as start, DFA mode,
    every symbol a single character, the selected state a state of the
    automaton. *)
Theorem window_session_safe (events : list event) :
  ∃ win ms,
    session AutomataWindow.new events = Return (win, ms)
    ∧ well_formed (window_world win)
    ∧ at_most_one_start (window_world win)
    ∧ is_dfa (automaton win) = true
    ∧ symbols_single (objects win)
    ∧ ∀ r, selected_state win = Some r →
           in_mapping (window_world win) r = true.
Proof.
  destruct (session_invariant AutomataWindow.new events window_invariant_new)
    as (win & ms & Hrun & Hinv).
  exists win, ms. split; [done|].
  destruct (window_invariant_world win Hinv) as (Hwf & Hone & Hdfa).
  destruct Hinv as (_ & Hall & Hsel & Hsym).
  repeat (split; [done|]).
  intros r Hr. by apply Hall, Hsel.
Qed.

(** X11: after any session, the Simulate button with input [s] shows
    "Accepted" exactly when a start state is set and the walk from it
    over [s], following the first destination at each character, ends in
    an accept state; otherwise it shows "Rejected". *)
Theorem window_simulate_message (events : list event) (win : Window)
    (ms : list (option message)) (input_str : string) :
  session AutomataWindow.new events = Return (win, ms) →
  AutomataWindow.simulate_input win input_str true
  = Return (Some (Information "Result"
      (if match start_state (automaton win) with
          | Some start =>
              spec_dfa_accepts (window_world win) start (chars input_str)
          | None => false
          end
       then "Accepted" else "Rejected"))).
Proof.
  intros Hrun.
  destruct (session_invariant AutomataWindow.new events window_invariant_new)
    as (win' & ms' & Hrun' & Hinv).
  rewrite Hrun in Hrun'. injection Hrun' as <- <-.
  destruct (window_invariant_world win Hinv) as (Hwf & _ & Hdfa).
  destruct (well_formed_known _ Hwf) as [_ Hne].
  pose proof (λ q, dfa_loop_spec (window_world win) q (chars input_str) Hne)
    as Hloop.
  unfold AutomataWindow.simulate_input, simulate, window_world in *.
  cbn [fst snd] in *. rewrite Hdfa.
  destruct (start_state (automaton win)) as [start|] eqn:Hstart; [|done].
  destruct (truthy (Some start)) eqn:Hset; simpl negb; cbv iota.
  - by rewrite Hloop.
  - (* a start state is a state of the automaton, so its name is not empty *)
    exfalso.
    destruct Hinv as ([ops Hops] & _).
    destruct (start_invariant_init true) as [HK0 HF0].
    destruct (start_invariant_run _ _ _ (run_checked_weaken _ _ _ Hops)
                HK0 HF0) as [HK HF].
    destruct (names_known_run _ _ _ Hops HK0 HF0) as (Hs & _).
    { split; [done|]. split; [set_solver|].
      intros r st c l Hr. simpl in Hr. by rewrite lookup_nil in Hr. }
    destruct (Hs start Hstart) as [r Hr].
    destruct (HK _ _ Hr) as [Hne' _].
    apply truthy_Some_ne in Hne'. congruence.
Qed.

(** * Loading any record *)

Lemma load_states_blank (prev : World) (names : list string) :
  loaded_blank (length prev.1)
    (load_states (prev.1, Automaton_init true) names)
  ∧ dom (states (load_states (prev.1, Automaton_init true) names).2)
    = list_to_set names
  ∧ start_state (load_states (prev.1, Automaton_init true) names).2 = None
  ∧ accept_states (load_states (prev.1, Automaton_init true) names).2 = ∅
  ∧ is_dfa (load_states (prev.1, Automaton_init true) names).2 = true.
Proof.
  destruct (load_states_spec (prev.1, Automaton_init true) names)
    as (Hs & Ha & Hd & _ & Hnew & Hdom).
  split; [|split; [|done]].
  - intros n r Hn. destruct (Hnew n r Hn) as [Hold|[Hlen Hinit]].
    + cbn in Hold. by rewrite lookup_empty in Hold.
    + split; [done|]. by exists (StateItem_init n).
  - rewrite Hdom. cbn [snd Automaton_init states].
    by rewrite dom_empty_L, (left_id_L ∅ (∪)).
Qed.

Lemma load_accept_cases (base : nat) (w : World) (names : list string) :
  loaded_blank base w →
  (∃ w', load_accept w names = Return w'
         ∧ ∀ n, n ∈ names → is_Some (states w.2 !! n))
  ∨ (load_accept w names = Raise KeyError
     ∧ ∃ n, n ∈ names ∧ states w.2 !! n = None).
Proof.
  revert w. induction names as [|n rest IH]; intros w HJ; simpl.
  - left. exists w. split; [done|]. by intros n ?%elem_of_nil.
  - destruct (states w.2 !! n) as [r|] eqn:Hr.
    + pose proof (step_states w (SetAccept r)) as Hstates.
      simpl step in Hstates.
      destruct (IH (set_accept w r)) as [(w' & Hload & Hall)|(Hload & m & Hm & Hnone)].
      { by apply (loaded_blank_step base w (SetAccept r)). }
      * left. exists w'. split; [done|].
        intros m [->|Hm]%elem_of_cons; [eauto|].
        rewrite <- Hstates by done. by apply Hall.
      * right. split; [done|]. exists m. split; [by right|].
        by rewrite <- Hstates.
    + right. split; [done|]. exists n. split; [by left|done].
Qed.

Lemma loaded_blank_tables (base : nat) (w : World) :
  loaded_blank base w → loaded_tables base w.
Proof.
  intros HJ n r Hn. destruct (HJ n r Hn) as (Hb & st & Hst & Hname & Hempty).
  split; [done|]. exists st. split; [done|]. split; [done|].
  intros c l. by rewrite Hempty, lookup_empty.
Qed.

Lemma loaded_tables_add_transition (base : nat) (w : World) (f t : nat)
    (c to_name : string) :
  loaded_tables base w →
  states w.2 !! to_name = Some t →
  loaded_tables base (add_transition w f c t).
Proof.
  intros HJ Ht n r. cbn [add_transition snd]. intros Hn.
  destruct (HJ _ _ Hn) as (Hb & st & Hst & Hname & Htbl).
  destruct (HJ _ _ Ht) as (_ & tobj & Htobj & Htname & _).
  split; [done|]. unfold add_transition. cbn [fst snd].
  rewrite add_transition_heap_at, Hst, Htobj. simpl.
  eexists. split; [done|].
  case_decide as Hf; [|done]. cbn [name transitions with_transitions].
  split; [done|]. intros c0 l. rewrite add_target_lookup.
  case_decide as Hc; [|apply Htbl].
  intros [= <-]. rewrite Htname.
  split; [apply append_new_nonempty|].
  destruct (transitions st !! c) as [l0|] eqn:Hl0; simpl.
  - destruct (Htbl c l0 Hl0) as (_ & Hnd & Hknown).
    split; [by apply append_new_nodup|].
    intros x. unfold append_new. case_bool_decide; [apply Hknown|].
    intros [Hx | ->%list_elem_of_singleton]%elem_of_app; eauto.
  - split; [apply append_new_nodup, NoDup_nil_2|].
    intros x ->%list_elem_of_singleton. eauto.
Qed.

Lemma load_targets_tables (base : nat) (from_obj : nat) (symbol : string)
    (w : World) (to_list : list string) :
  loaded_tables base w →
  loaded_tables base (load_targets from_obj symbol w to_list)
  ∧ (load_targets from_obj symbol w to_list).2 = w.2.
Proof.
  revert w. induction to_list as [|t rest IH]; intros w HJ; simpl; [done|].
  fold (load_targets from_obj symbol).
  destruct (states w.2 !! t) as [to_obj|] eqn:Ht; [|by apply IH].
  destruct (IH (add_transition w from_obj symbol to_obj)) as [HJ' Heq].
  { by apply (loaded_tables_add_transition base w from_obj to_obj symbol t). }
  done.
Qed.

Lemma load_symbols_tables (base : nat) (from_obj : nat) (w : World)
    (pairs : list (string * list string)) :
  loaded_tables base w →
  loaded_tables base (load_symbols from_obj w pairs)
  ∧ (load_symbols from_obj w pairs).2 = w.2.
Proof.
  revert w. induction pairs as [|[c l] rest IH]; intros w HJ; simpl; [done|].
  fold (load_symbols from_obj).
  destruct (load_targets_tables base from_obj c w l HJ) as [HJ1 Heq1].
  destruct (IH _ HJ1) as [HJ2 Heq2]. split; [done|congruence].
Qed.

Lemma load_transitions_tables (base : nat) (w : World)
    (items : list (string * gmap string (list string))) :
  loaded_tables base w →
  loaded_tables base (load_transitions w items)
  ∧ (load_transitions w items).2 = w.2.
Proof.
  revert w. induction items as [|[n tbl] rest IH]; intros w HJ; simpl;
    [done|].
  fold (load_transitions).
  destruct (states w.2 !! n) as [from_obj|]; [|by apply IH].
  destruct (load_symbols_tables base from_obj w (map_to_list tbl) HJ)
    as [HJ1 Heq1].
  destruct (IH _ HJ1) as [HJ2 Heq2]. split; [done|congruence].
Qed.

(** What [load_automaton] does with any record. *)
Lemma load_automaton_cases (prev : World) (data : Saved) :
  (names_listed data
   ∧ ∃ w, load_automaton prev data = Return w
          ∧ loaded_tables (length prev.1) w
          ∧ dom (states w.2) = list_to_set (sv_states data)
          ∧ accept_states w.2 = list_to_set (sv_accept data)
          ∧ start_state w.2
            = (if truthy (sv_start data) then sv_start data else None)
          ∧ is_dfa w.2 = true)
  ∨ (¬ names_listed data ∧ load_automaton prev data = Raise KeyError).
Proof.
  destruct (load_states_blank prev (sv_states data))
    as (HJ1 & Hdom1 & Hs1 & Ha1 & Hd1).
  unfold load_automaton.
  set (w1 := load_states (prev.1, Automaton_init true) (sv_states data)) in *.
  assert (∀ n, is_Some (states w1.2 !! n) ↔ n ∈ sv_states data) as Hin.
  { intros n. by rewrite <- elem_of_dom, Hdom1, elem_of_list_to_set. }
  destruct (truthy (sv_start data)) eqn:Hset.
  - destruct (sv_start data) as [s|] eqn:Hstart; [|done].
    destruct (states w1.2 !! s) as [r|] eqn:Hr.
    + destruct (load_start_spec (length prev.1) w1 (Some s) HJ1 Hs1)
        as (w2 & Hload2 & HJ2 & Hst2 & Ha2 & Hd2 & _ & Hstart2).
      { intros s' [= <-] _. eauto. }
      rewrite Hload2. cbn [mbind result_bind].
      destruct (load_accept_cases (length prev.1) w2 (sv_accept data) HJ2)
        as [(w3 & Hload3 & Hall)|(Hload3 & n & Hn & Hnone)].
      * destruct (load_accept_spec (length prev.1) w2 (sv_accept data) HJ2 Hall)
          as (w3' & Hload3' & HJ3 & Hst3 & Hs3 & Hd3 & Ha3).
        rewrite Hload3 in Hload3'. injection Hload3' as <-.
        rewrite Hload3. cbn [mbind result_bind].
        destruct (load_transitions_tables (length prev.1) w3
                    (map_to_list (sv_transitions data)))
          as [HJ4 Heq4]; [by apply loaded_blank_tables|].
        left. split.
        { split.
          - intros s' Hs' _. rewrite Hstart in Hs'. injection Hs' as <-.
            apply Hin. eauto.
          - intros n Hn. apply Hin. rewrite <- Hst2. by apply Hall. }
        eexists. split; [done|]. split; [done|]. rewrite Heq4.
        split; [by rewrite Hst3, Hst2|].
        split; [by rewrite Ha3, Ha2, Ha1, (right_id_L ∅ (∪))|].
        split; [rewrite Hs3; by apply Hstart2|].
        by rewrite Hd3, Hd2.
      * rewrite Hload3. right. split; [|done].
        intros [_ Hacc]. apply Hacc, Hin in Hn.
        rewrite Hst2 in Hnone. rewrite Hnone in Hn. by destruct Hn.
    + right. split.
      * intros [Hs _]. apply (Hs s Hstart), Hin in Hset.
        rewrite Hr in Hset. by destruct Hset.
      * unfold load_start. by rewrite Hset, Hr.
  - unfold load_start. rewrite Hset. cbn [mbind result_bind].
    destruct (load_accept_cases (length prev.1) w1 (sv_accept data) HJ1)
      as [(w3 & Hload3 & Hall)|(Hload3 & n & Hn & Hnone)].
    + destruct (load_accept_spec (length prev.1) w1 (sv_accept data) HJ1 Hall)
        as (w3' & Hload3' & HJ3 & Hst3 & Hs3 & Hd3 & Ha3).
      rewrite Hload3 in Hload3'. injection Hload3' as <-.
      rewrite Hload3. cbn [mbind result_bind].
      destruct (load_transitions_tables (length prev.1) w3
                  (map_to_list (sv_transitions data)))
        as [HJ4 Heq4]; [by apply loaded_blank_tables|].
      left. split.
      { split.
        - intros s Hs Ht. rewrite Hs in Hset. congruence.
        - intros n Hn. apply Hin. by apply Hall. }
      eexists. split; [done|]. split; [done|]. rewrite Heq4.
      split; [by rewrite Hst3|].
      split; [by rewrite Ha3, Ha1, (right_id_L ∅ (∪))|].
      split; [by rewrite Hs3|].
      by rewrite Hd3.
    + rewrite Hload3. right. split; [|done].
      intros [_ Hacc]. apply Hacc, Hin in Hn.
      rewrite Hnone in Hn. by destruct Hn.
Qed.

Lemma load_start_result (w : World) (start : option string) :
  (∃ w', load_start w start = Return w')
  ∨ load_start w start = Raise KeyError.
Proof.
  unfold load_start. destruct (truthy start); [|eauto].
  destruct start as [s|]; [|eauto].
  destruct (states w.2 !! s); eauto.
Qed.

Lemma load_accept_result (w : World) (names : list string) :
  (∃ w', load_accept w names = Return w')
  ∨ load_accept w names = Raise KeyError.
Proof.
  revert w. induction names as [|n rest IH]; intros w; simpl; [eauto|].
  destruct (states w.2 !! n); [apply IH|eauto].
Qed.

(** With its four keys a file is loaded as the record it holds; a
    missing key is a [KeyError], at the subscript or before it. *)
Lemma load_automaton_file_cases (prev : World) (data : FileData) :
  match file_record data with
  | Some r => load_automaton_file prev data = load_automaton prev r
  | None => load_automaton_file prev data = Raise KeyError
  end.
Proof.
  unfold load_automaton_file, file_record.
  destruct data as [[names|] [start|] [acc|] [tr|]];
    cbn [fd_states fd_start fd_accept fd_transitions subscript
         mbind result_bind option_bind]; try done.
  - destruct (load_start_result
                (load_states (prev.1, Automaton_init true) names) start)
      as [[w2 ->]| ->]; cbn [mbind result_bind]; [|done].
    by destruct (load_accept_result w2 acc) as [[w3 ->]| ->].
  - by destruct (load_start_result
                   (load_states (prev.1, Automaton_init true) names) start)
      as [[w2 ->]| ->].
  - by destruct (load_start_result
                   (load_states (prev.1, Automaton_init true) names) start)
      as [[w2 ->]| ->].
Qed.

(** X12: for the object read from a file, whose values have the types
    [save_automaton] writes, [load_automaton] returns an automaton
    exactly when the four keys are there and the start name, unless
    [None] or empty, and every accept name are in the list of states; in
    every other case it fails with [KeyError].  Unlisted sources and
    destinations of transitions are skipped, not errors.  On a record
    read back from [save_automaton] it is [load_automaton] on that
    record. *)
Theorem load_automaton_KeyError (prev : World) (data : FileData) :
  ((∃ w, load_automaton_file prev data = Return w)
   ↔ ∃ r, file_record data = Some r ∧ names_listed r)
  ∧ (load_automaton_file prev data = Raise KeyError
     ↔ ¬ ∃ r, file_record data = Some r ∧ names_listed r)
  ∧ ∀ r, load_automaton_file prev (file_of r) = load_automaton prev r.
Proof.
  split; [|split; [|done]];
    pose proof (load_automaton_file_cases prev data) as Hfile;
    destruct (file_record data) as [r|]; rewrite Hfile.
  - destruct (load_automaton_cases prev r)
      as [(Hok & w & Hload & _)|(Hbad & Hload)]; rewrite Hload.
    + split; eauto.
    + split; [by intros [w ?]|].
      intros (r' & [= <-] & Hok). by destruct Hbad.
  - split; [by intros [w ?]|]. by intros (r' & ? & _).
  - destruct (load_automaton_cases prev r)
      as [(Hok & w & Hload & _)|(Hbad & Hload)]; rewrite Hload.
    + split; [done|]. intros Hno. destruct Hno. eauto.
    + split; [|done]. intros _ (r' & [= <-] & Hok). by destruct Hbad.
  - split; [|done]. intros _ (r' & ? & _). done.
Qed.

(** Files without a key: the load fails, whatever the other keys. *)
Lemma load_missing_key :
  load_automaton_file dfa_ab file_without_start = Raise KeyError
  ∧ load_automaton_file dfa_ab file_without_transitions = Raise KeyError
  ∧ load_automaton_file dfa_ab (file_of record_loose) = Return loaded_loose.
Proof. repeat split; vm_compute; reflexivity. Qed.

(** A start name that is not listed makes the load fail; the loose
    record loads, its unlisted destination and source skipped. *)
Lemma load_examples :
  load_automaton dfa_ab record_bad_start = Raise KeyError
  ∧ load_automaton dfa_ab record_loose = Return loaded_loose
  ∧ get_state loaded_loose.1 loaded_loose.2 "q0"
    = Some (mkState "q0" false true {["a" := ["q1"]; "long" := ["q0"]]})
  ∧ simulate loaded_loose "a" = Return true.
Proof. repeat split; vm_compute; reflexivity. Qed.

(** X13: whatever the record, an automaton that [load_automaton] returns
    is well formed and in DFA mode, has exactly the listed states and
    accept states, holds only objects created by the load, and
    [simulate] on it returns a boolean for every input. *)
Theorem load_automaton_well_formed (prev w : World) (data : Saved)
    (input_str : string) :
  load_automaton prev data = Return w →
  well_formed w
  ∧ is_dfa w.2 = true
  ∧ dom (states w.2) = list_to_set (sv_states data)
  ∧ accept_states w.2 = list_to_set (sv_accept data)
  ∧ start_state w.2
    = (if truthy (sv_start data) then sv_start data else None)
  ∧ (∀ n r, states w.2 !! n = Some r → (length prev.1 ≤ r)%nat)
  ∧ ∃ b, simulate w input_str = Return b.
Proof.
  intros Hload.
  destruct (load_automaton_cases prev data)
    as [([Hstart Hacc] & w' & Hload' & HJ & Hdom & Ha & Hs & Hd)
       |(_ & Hload')]; rewrite Hload in Hload'; [|done].
  injection Hload' as <-.
  assert (∀ n, n ∈ sv_states data → is_Some (states w.2 !! n)) as Hin.
  { intros n Hn. apply elem_of_dom. rewrite Hdom.
    by apply elem_of_list_to_set. }
  assert (well_formed w) as Hwf.
  { split; [|split; [|split]].
    - intros n r Hn. destruct (HJ _ _ Hn) as (_ & st & ? & ? & _). eauto.
    - intros s. rewrite Hs.
      destruct (truthy (sv_start data)) eqn:Hset; [|done].
      intros Hsv Ht. by apply Hin, Hstart.
    - intros n. rewrite Ha. intros Hn%elem_of_list_to_set.
      by apply Hin, Hacc.
    - intros n st c l (r & Hn & Hst)%get_state_Some Hl.
      destruct (HJ _ _ Hn) as (_ & st' & Hst' & _ & Htbl).
      assert (st' = st) as -> by congruence. by apply (Htbl c l). }
  split; [done|]. split; [done|]. split; [done|]. split; [done|].
  split; [done|]. split.
  - intros n r Hn. by destruct (HJ _ _ Hn).
  - apply simulate_dfa_returns; [done|]. by apply well_formed_known.
Qed.

Lemma load_automaton_well_formed_witness :
  well_formed loaded_loose
  ∧ is_dfa loaded_loose.2 = true
  ∧ dom (states loaded_loose.2) = list_to_set (sv_states record_loose)
  ∧ accept_states loaded_loose.2 = list_to_set (sv_accept record_loose)
  ∧ start_state loaded_loose.2
    = (if truthy (sv_start record_loose) then sv_start record_loose
       else None)
  ∧ (∀ n r, states loaded_loose.2 !! n = Some r →
            (length dfa_ab.1 ≤ r)%nat)
  ∧ ∃ b, simulate loaded_loose "aab" = Return b.
Proof.
  apply (load_automaton_well_formed dfa_ab loaded_loose record_loose "aab").
  vm_compute. reflexivity.
Defined.

Lemma window_simulate_message_witness :
  AutomataWindow.simulate_input window_ab "ab" true
  = Return (Some (Information "Result"
      (if match start_state (automaton window_ab) with
          | Some start =>
              spec_dfa_accepts (window_world window_ab) start (chars "ab")
          | None => false
          end
       then "Accepted" else "Rejected"))).
Proof.
  apply (window_simulate_message session_ab window_ab messages_ab "ab").
  vm_compute. reflexivity.
Defined.

(** The session above ends with the two-state DFA of the examples, and
    shows the duplicate-name, unknown-destination and long-symbol
    warnings and the result of the simulation on the way. *)
Lemma session_ab_result :
  window_world window_ab = dfa_ab
  ∧ messages_ab
    = [None; None;
       Some (Warning "Duplicate state" "State 'q1' already exists.");
       None; None; None; None;
       Some (Warning "Invalid State"
               "Destination state 'q2' does not exist.");
       Some (Warning "Invalid Symbol"
               "Transition symbol must be a single character.");
       None; None; None;
       Some (Information "Result" "Accepted")].
Proof. split; vm_compute; reflexivity. Qed.

(** * The saved record *)

(** X14: the record saved from an automaton whose states are stored
    under their names lists every state name once and every accept name
    once, keeps the start name as it is, and has, for each state name,
    the transition table of that state, and no entry for other names. *)
Theorem save_automaton_record (w : World) :
  stored_under_name w →
  NoDup (sv_states (save_automaton w))
  ∧ (∀ n, n ∈ sv_states (save_automaton w) ↔ is_Some (states w.2 !! n))
  ∧ sv_start (save_automaton w) = start_state w.2
  ∧ NoDup (sv_accept (save_automaton w))
  ∧ (∀ n, n ∈ sv_accept (save_automaton w) ↔ n ∈ accept_states w.2)
  ∧ ∀ n, sv_transitions (save_automaton w) !! n
         = transitions <$> get_state w.1 w.2 n.
Proof.
  intros HK.
  pose proof (save_automaton_transitions w) as Htr.
  destruct w as [h a]. cbn [fst snd] in *.
  unfold save_automaton in *.
  cbn [sv_states sv_start sv_accept sv_transitions] in *.
  split; [apply NoDup_fst_map_to_list|].
  split; [apply elem_of_saved_states|].
  split; [done|].
  split; [apply NoDup_elements|].
  split; [intros n; apply elem_of_elements|].
  intros n. by apply Htr.
Qed.

Lemma save_automaton_record_witness :
  NoDup (sv_states (save_automaton dfa_ab))
  ∧ (∀ n, n ∈ sv_states (save_automaton dfa_ab)
          ↔ is_Some (states dfa_ab.2 !! n))
  ∧ sv_start (save_automaton dfa_ab) = start_state dfa_ab.2
  ∧ NoDup (sv_accept (save_automaton dfa_ab))
  ∧ (∀ n, n ∈ sv_accept (save_automaton dfa_ab) ↔ n ∈ accept_states dfa_ab.2)
  ∧ ∀ n, sv_transitions (save_automaton dfa_ab) !! n
         = transitions <$> get_state dfa_ab.1 dfa_ab.2 n.
Proof.
  apply (save_automaton_record dfa_ab).
  by destruct dfa_ab_well_formed.
Defined.

(** * Adding a transition never loses an accepted input *)

Lemma dfa_loop_true_mono (w w' : World) (q : string) (input : list string) :
  (∀ n st c t l,
     get_state w.1 w.2 n = Some st → transitions st !! c = Some (t :: l) →
     ∃ st' l', get_state w'.1 w'.2 n = Some st'
               ∧ transitions st' !! c = Some (t :: l')) →
  accept_states w'.2 = accept_states w.2 →
  dfa_loop w.1 w.2 q input = Return true →
  dfa_loop w'.1 w'.2 q input = Return true.
Proof.
  intros Hkeep Hacc. revert q.
  induction input as [|c rest IH]; intros q; simpl.
  - by rewrite Hacc.
  - destruct (get_state w.1 w.2 q) as [st|] eqn:Hst; [|done].
    destruct (transitions st !! c) as [[|t l]|] eqn:Hl; [done| |done].
    destruct (Hkeep _ _ _ _ _ Hst Hl) as (st' & l' & -> & ->).
    apply IH.
Qed.

Lemma spec_frontier_mono (w w' : World) (F F' : gset string)
    (input : list string) :
  (∀ q c, spec_targets w q c ⊆ spec_targets w' q c) →
  F ⊆ F' →
  foldl (spec_nfa_step w) F input ⊆ foldl (spec_nfa_step w') F' input.
Proof.
  intros Hsub. revert F F'.
  induction input as [|c rest IH]; intros F F' HF; simpl; [done|].
  apply IH. intros t. unfold spec_nfa_step.
  rewrite !elem_of_union_list.
  intros (X & HX & Ht).
  apply list_elem_of_fmap in HX as (q & -> & Hq%elem_of_elements).
  exists (spec_targets w' q c). split.
  - apply list_elem_of_fmap. exists q. split; [done|].
    apply elem_of_elements. by apply HF.
  - by apply Hsub.
Qed.

Lemma add_transition_table_grows (w : World) (f t : nat) (c0 n c : string)
    (st : StateItem) (l : list string) :
  get_state w.1 w.2 n = Some st →
  transitions st !! c = Some l →
  ∃ st' l', get_state (add_transition w f c0 t).1
                      (add_transition w f c0 t).2 n = Some st'
            ∧ transitions st' !! c = Some (l ++ l').
Proof.
  intros Hst Hl. rewrite get_state_add_transition, Hst. simpl.
  destruct (w.1 !! t) as [tobj|];
    [|exists st, []; by rewrite app_nil_r].
  case_decide; [|exists st, []; by rewrite app_nil_r].
  destruct (decide (c = c0)) as [->|Hc].
  - destruct (decide (name tobj ∈ l)) as [Hin|Hin].
    + eexists _, []. split; [done|]. cbn [transitions with_transitions].
      rewrite add_target_lookup, decide_True, Hl by done. simpl.
      by rewrite append_new_present, app_nil_r.
    + eexists _, [name tobj]. split; [done|].
      cbn [transitions with_transitions].
      rewrite add_target_lookup, decide_True, Hl by done. simpl.
      unfold append_new. by rewrite bool_decide_eq_false_2.
  - eexists _, []. split; [done|]. cbn [transitions with_transitions].
    by rewrite add_target_lookup, decide_False, app_nil_r.
Qed.

(** X15: [add_transition] never turns an accepted input into a rejected
    one.  In DFA mode this holds for every automaton; in NFA mode when
    the start state and the destinations, the new one included, are
    states of the mapping. *)
Theorem add_transition_keeps_accepted (w : World) (from_state to_state : nat)
    (symbol start input_str : string) :
  start_state w.2 = Some start →
  (if is_dfa w.2 then True
   else is_Some (get_state w.1 w.2 start) ∧ targets_known w
        ∧ in_mapping w to_state = true) →
  simulate w input_str = Return true →
  simulate (add_transition w from_state symbol to_state) input_str
  = Return true.
Proof.
  intros Hstart Hmode Hacc.
  set (w' := add_transition w from_state symbol to_state).
  destruct (truthy (Some start)) eqn:Hset.
  2:{ destruct w as [h a]. cbn [fst snd] in *. unfold simulate in Hacc.
      by rewrite Hstart, Hset in Hacc. }
  destruct (is_dfa w.2) eqn:Hdfa.
  - assert (dfa_loop w.1 w.2 start (chars input_str) = Return true) as Hloop.
    { destruct w as [h a]. cbn [fst snd] in *. unfold simulate in Hacc.
      by rewrite Hstart, Hset, Hdfa in Hacc. }
    apply (dfa_loop_true_mono w w') in Hloop; [| |done].
    + unfold w', simulate, add_transition in *. destruct w as [h a].
      cbn [fst snd] in *. by rewrite Hstart, Hset, Hdfa.
    + intros n st c t l Hst Hl.
      destruct (add_transition_table_grows w from_state to_state symbol
                  n c st (t :: l) Hst Hl) as (st' & l' & Hst' & Hl').
      exists st', (l ++ l'). done.
  - destruct Hmode as (Hs & Hknown & Hto).
    rewrite (simulate_nfa_frontier w start) in Hacc by done.
    injection Hacc as Hacc. apply bool_decide_eq_true in Hacc
      as (q & Hq & Haccept).
    assert (∀ q c, spec_targets w q c ⊆ spec_targets w' q c) as Hsub.
    { intros q' c x. unfold spec_targets, w'.
      destruct (get_state w.1 w.2 q') as [st|] eqn:Hst; [|set_solver].
      destruct (transitions st !! c) as [l|] eqn:Hl; [|set_solver].
      destruct (add_transition_table_grows w from_state to_state symbol
                  q' c st l Hst Hl) as (st' & l' & -> & ->).
      rewrite !elem_of_list_to_set, elem_of_app. eauto. }
    apply in_mapping_true in Hto as (tobj & Htobj & Hmap).
    assert (∀ n, is_Some (get_state w.1 w.2 n) →
                 is_Some (get_state w'.1 w'.2 n)) as Hstill.
    { intros n [st Hst]. unfold w'.
      rewrite get_state_add_transition, Hst. simpl. eauto. }
    rewrite (simulate_nfa_frontier w' start); try done.
    + f_equal. apply bool_decide_eq_true_2. exists q. split; [|done].
      by apply (spec_frontier_mono w w' {[start]} {[start]}).
    + by apply Hstill.
    + intros n st' c l x Hst' Hl Hx. apply Hstill.
      unfold w' in Hst'. rewrite get_state_add_transition in Hst'.
      destruct (get_state w.1 w.2 n) as [st|] eqn:Hst; [|done].
      simpl in Hst'. injection Hst' as <-. rewrite Htobj in Hl.
      case_decide; [|by apply (Hknown n st c l x)].
      cbn [transitions with_transitions] in Hl.
      rewrite add_target_lookup in Hl.
      case_decide as Hc; [|by apply (Hknown n st c l x)].
      injection Hl as <-. unfold append_new in Hx.
      assert (is_Some (get_state w.1 w.2 (name tobj))) as Hnew.
      { exists tobj. apply get_state_Some. eauto. }
      destruct (transitions st !! symbol) as [l0|] eqn:Hl0; simpl in Hx.
      * case_bool_decide; [by apply (Hknown n st symbol l0 x)|].
        apply elem_of_app in Hx as [Hx | ->%list_elem_of_singleton];
          [by apply (Hknown n st symbol l0 x)|done].
      * by apply list_elem_of_singleton in Hx as ->.
Qed.

Lemma add_transition_keeps_accepted_witness :
  simulate (add_transition dfa_ab 0 "b" 0) "ab" = Return true
  ∧ simulate (add_transition nfa_fork 1 "a" 2) "a" = Return true.
Proof.
  split.
  - by apply (add_transition_keeps_accepted dfa_ab 0 0 "b" "q0" "ab").
  - apply (add_transition_keeps_accepted nfa_fork 1 2 "a" "q0" "a").
    + reflexivity.
    + split; [vm_compute; eauto|]. split; [|reflexivity].
      apply well_formed_known.
      apply (validated_well_formed false build_fork).
      vm_compute. reflexivity.
    + vm_compute. reflexivity.
Defined.
